(** * Lead scraper: the aggregation route [src/app/api/scrape/route.ts]

    A shallow embedding of the scraping route and the properties of its
    lead-acquisition pipeline.

    Modelling conventions.
    - A JavaScript string is a [string]; each character stands for one
      UTF-16 code unit below 256 (the Latin-1 range), so the character
      classes of the regular expressions, [trim] and [toLowerCase] are
      written out for that range.
    - [undefined] is [None].
    - The outside world (the network, the HTML parser, [Math.random]) is
      an explicit environment; the calls the route makes are recorded in
      a trace that is threaded through the code. *)

From Stdlib Require Import List String Ascii Arith Bool Lia PeanoNat.
Import ListNotations.

Local Open Scope list_scope.
Local Open Scope string_scope.
Local Open Scope nat_scope.

(* ================================================================== *)
(** ** Characters and strings *)

Module Js.

Definition code (c : ascii) : nat := nat_of_ascii c.

Definition between (lo hi : nat) (c : ascii) : bool :=
  (lo <=? code c) && (code c <=? hi).

Definition is_char (d c : ascii) : bool := Ascii.eqb d c.

(** [\d] *)
Definition is_digit (c : ascii) : bool := between 48 57 c.

(** [\w]: letters, digits and the underscore. *)
Definition is_word (c : ascii) : bool :=
  between 97 122 c || between 65 90 c || is_digit c || is_char "_" c.

(** [\s] (also the characters removed by [trim]): tab, line feed,
    vertical tab, form feed, carriage return, space, no-break space. *)
Definition is_space (c : ascii) : bool :=
  between 9 13 c || (code c =? 32) || (code c =? 160).

(** [String.prototype.toLowerCase] on one code unit. *)
Definition lower_char (c : ascii) : ascii :=
  if between 65 90 c then ascii_of_nat (code c + 32)
  else if between 192 222 c && negb (code c =? 215)
       then ascii_of_nat (code c + 32)
       else c.

Fixpoint toLowerCase (s : string) : string :=
  match s with
  | EmptyString => EmptyString
  | String c s' => String (lower_char c) (toLowerCase s')
  end.

Fixpoint trimStart (s : string) : string :=
  match s with
  | String c s' => if is_space c then trimStart s' else s
  | EmptyString => EmptyString
  end.

(** The string without its trailing white space. *)
Fixpoint trimEnd (s : string) : string :=
  match s with
  | EmptyString => EmptyString
  | String c s' =>
      match trimEnd s' with
      | EmptyString => if is_space c then EmptyString else String c EmptyString
      | t => String c t
      end
  end.

Definition trim (s : string) : string := trimEnd (trimStart s).

(** [s.startsWith(p)] *)
Definition startsWith (s p : string) : bool := String.prefix p s.

(** [s.includes(k)] *)
Fixpoint includes (s k : string) : bool :=
  String.prefix k s ||
  match s with
  | EmptyString => false
  | String _ s' => includes s' k
  end.

(** A string in a boolean position: only the empty string is falsy. *)
Definition truthy (s : string) : bool :=
  match s with EmptyString => false | String _ _ => true end.

(** [a || b] on strings. *)
Definition or_else (a b : string) : string := if truthy a then a else b.

(** [a || b] where either side may be [undefined]. *)
Definition or_undef (a b : option string) : option string :=
  match a with
  | Some (String _ _) => a
  | _ => b
  end.

(** Decimal rendering of a number in a template literal. *)
Definition digit_char (d : nat) : ascii := ascii_of_nat (48 + d).

Fixpoint decimal_fuel (fuel n : nat) (acc : string) : string :=
  match fuel with
  | 0 => acc
  | S fuel' =>
      let acc' := String (digit_char (n mod 10)) acc in
      if n / 10 =? 0 then acc' else decimal_fuel fuel' (n / 10) acc'
  end.

Definition decimal (n : nat) : string := decimal_fuel (S n) n EmptyString.

End Js.

(* ================================================================== *)
(** ** Regular expressions

    The two patterns of the route are sequences of single-character
    classes under a greedy quantifier.  [match_here] is the backtracking
    matcher anchored at the start of its input, [exec] the leftmost
    search of [String.prototype.match] without the [g] flag. *)

Module Regex.

Local Open Scope list_scope.

Inductive quant : Type :=
| One                 (* x      *)
| Opt                 (* x?     *)
| Plus                (* x+     *)
| Times (n : nat).    (* x{n}   *)

Record atom : Type := Atom { cls : ascii -> bool; qnt : quant }.

Definition regex : Type := list atom.

Definition qmin (q : quant) : nat :=
  match q with One => 1 | Opt => 0 | Plus => 1 | Times n => n end.

(** The greatest repetition count a quantifier allows when [avail]
    characters of the class are available. *)
Definition qcap (q : quant) (avail : nat) : nat :=
  match q with
  | One => Nat.min 1 avail
  | Opt => Nat.min 1 avail
  | Plus => avail
  | Times n => Nat.min n avail
  end.

(** Length of the longest prefix whose characters are all in the class. *)
Fixpoint run (p : ascii -> bool) (s : list ascii) : nat :=
  match s with
  | c :: s' => if p c then S (run p s') else 0
  | [] => 0
  end.

(** Greedy choice with backtracking: try [k], then [k-1], ... down to
    [lo]. *)
Fixpoint backtrack (k lo : nat) (try : nat -> option nat) : option nat :=
  match try k with
  | Some n => Some n
  | None =>
      match k with
      | 0 => None
      | S k' => if lo <=? k' then backtrack k' lo try else None
      end
  end.

(** Number of characters matched at the start of [s], if the pattern
    matches there. *)
Fixpoint match_here (r : regex) (s : list ascii) {struct r} : option nat :=
  match r with
  | [] => Some 0
  | a :: r' =>
      let hi := qcap (qnt a) (run (cls a) s) in
      let lo := qmin (qnt a) in
      if hi <? lo then None
      else backtrack hi lo
             (fun k => option_map (Nat.add k) (match_here r' (skipn k s)))
  end.

(** Leftmost match: its index and its text. *)
Fixpoint exec_from (r : regex) (s : list ascii) (i : nat)
  : option (nat * list ascii) :=
  match match_here r s with
  | Some n => Some (i, firstn n s)
  | None =>
      match s with
      | [] => None
      | _ :: s' => exec_from r s' (S i)
      end
  end.

Definition exec (r : regex) (s : list ascii) : option (nat * list ascii) :=
  exec_from r s 0.

(** [s.match(r)?.[0]] *)
Definition match0 (r : regex) (s : string) : option string :=
  option_map (fun im => string_of_list_ascii (snd im))
             (exec r (list_ascii_of_string s)).

(** What it means for a word to match a pattern, without reference to
    the search order. *)
Definition allowed (q : quant) (n : nat) : Prop :=
  match q with
  | One => n = 1
  | Opt => n <= 1
  | Plus => 1 <= n
  | Times m => n = m
  end.

Inductive Matches : regex -> list ascii -> Prop :=
| Matches_nil : Matches [] []
| Matches_cons a r w1 w2 :
    Forall (fun c => cls a c = true) w1 ->
    allowed (qnt a) (List.length w1) ->
    Matches r w2 ->
    Matches (a :: r) (w1 ++ w2).

(** [m] occurs in [text] at index [i] and matches the pattern. *)
Definition Occurs (r : regex) (text : string) (i : nat) (m : string) : Prop :=
  exists pre post,
    text = (pre ++ m ++ post)%string /\ String.length pre = i /\
    Matches r (list_ascii_of_string m).

(** [m] is a match of the pattern in [text] and no match starts before
    it. *)
Definition FirstMatch (r : regex) (text m : string) : Prop :=
  exists i, Occurs r text i m /\ forall j m', Occurs r text j m' -> i <= j.

Definition NoMatch (r : regex) (text : string) : Prop :=
  forall j m', ~ Occurs r text j m'.

(** The least number of characters a match has. *)
Definition min_length (r : regex) : nat :=
  fold_right (fun a n => qmin (qnt a) + n) 0 r.

End Regex.

(* ================================================================== *)
(** ** The patterns of the route *)

Import Regex.

(** [[\w.-]] *)
Definition word_dot_dash (c : ascii) : bool :=
  Js.is_word c || Js.is_char "." c || Js.is_char "-" c.

(** [[-.\s]] *)
Definition dash_dot_space (c : ascii) : bool :=
  Js.is_char "-" c || Js.is_char "." c || Js.is_space c.

(** [/[\w.-]+@[\w.-]+\.\w+/] *)
Definition emailPattern : regex :=
  [ Atom word_dot_dash Plus;
    Atom (Js.is_char "@") One;
    Atom word_dot_dash Plus;
    Atom (Js.is_char ".") One;
    Atom Js.is_word Plus ].

(** [/\(?\d{3}\)?[-.\s]?\d{3}[-.\s]?\d{4}/] *)
Definition phonePattern : regex :=
  [ Atom (Js.is_char "(") Opt;
    Atom Js.is_digit (Times 3);
    Atom (Js.is_char ")") Opt;
    Atom dash_dot_space Opt;
    Atom Js.is_digit (Times 3);
    Atom dash_dot_space Opt;
    Atom Js.is_digit (Times 4) ].

(** Contact Inference: [emailMatch?.[0] || phoneMatch?.[0]]. *)
Definition inferContact (snippet : string) : option string :=
  Js.or_undef (match0 emailPattern snippet) (match0 phonePattern snippet).

(* ================================================================== *)
(** ** Data model *)

(** [interface Lead] *)
Record Lead : Type := mkLead {
  name : string;
  url : string;
  description : string;
  contact : option string
}.

(** A thrown value; only its [message] is ever read. *)
Record Error : Type := mkError { message : string }.

(** One element selected by an adapter ([.result] or [.b_algo]) as the
    adapter's inner selectors see it: the text of the title link, its
    [href] attribute and the text of the snippet. *)
Record ResultNode : Type := mkNode {
  title_text : string;
  href : option string;
  snippet_text : string
}.

(** What [response.text()] followed by [cheerio.load] yields. *)
Inductive Body : Type :=
| TextRejects (e : Error)               (* reading the body fails *)
| ParseThrows (e : Error)               (* the markup cannot be loaded *)
| Page (results : list ResultNode).     (* the selected result elements *)

(** What [fetch(searchUrl, ...)] yields. *)
Inductive FetchResult : Type :=
| FetchRejects (e : Error)              (* network error *)
| Response (ok : bool) (body : Body).

(** [Math.random()]: the route only ever uses a draw [r] through
    [Math.floor(r * k)] for a positive array length or constant [k], and
    through [r > 0.5].  A draw is a double in the half-open unit
    interval; the rounded product [r * k] stays below [k], so the
    floored value is an index below [k].  The interface keeps the
    arithmetic of doubles abstract and records that bound. *)
Class MathRandom : Type := {
  draw : Type;
  floor_times : draw -> nat -> nat;
  above_half : draw -> bool;
  floor_times_lt : forall (r : draw) (k : nat), 0 < k -> floor_times r k < k
}.

(** The functions of the route whose invocations are traced. *)
Inductive Source : Type := DuckDuckGo | Bing | Demo.

Inductive Event : Type :=
| Invoke (s : Source)            (* a source function is entered *)
| Fetch (searchUrl : string)     (* an outbound request *)
| ConsoleError (label : string). (* console.error *)

Definition Source_eqb (a b : Source) : bool :=
  match a, b with
  | DuckDuckGo, DuckDuckGo | Bing, Bing | Demo, Demo => true
  | _, _ => false
  end.

Definition is_fetch (e : Event) : bool :=
  match e with Fetch _ => true | _ => false end.

Definition is_invoke (s : Source) (e : Event) : bool :=
  match e with Invoke s' => Source_eqb s s' | _ => false end.

(** The sources entered, in order. *)
Fixpoint invocations (t : list Event) : list Source :=
  match t with
  | [] => []
  | Invoke s :: t' => s :: invocations t'
  | _ :: t' => invocations t'
  end%list.

(** The mutable part of the world: the trace so far (oldest first) and
    the number of random draws consumed. *)
Record World : Type := mkWorld {
  trace : list Event;
  drawn : nat
}.

(* ================================================================== *)
(** ** A state and exception monad for the route *)

Definition M (A : Type) : Type := World -> (Error + A) * World.

Definition ret {A} (a : A) : M A := fun w => (inr a, w).

Definition throw {A} (e : Error) : M A := fun w => (inl e, w).

Definition bind {A B} (m : M A) (k : A -> M B) : M B :=
  fun w =>
    match m w with
    | (inr a, w') => k a w'
    | (inl e, w') => (inl e, w')
    end.

(** [try { body } catch (error) { handler }] *)
Definition try_catch {A} (body : M A) (handler : Error -> M A) : M A :=
  fun w =>
    match body w with
    | (inr a, w') => (inr a, w')
    | (inl e, w') => handler e w'
    end.

Definition emit (e : Event) : M unit :=
  fun w => (inr tt, mkWorld (trace w ++ [e])%list (drawn w)).

Notation "x <- m ;; k" := (bind m (fun x => k))
  (at level 61, m at next level, right associativity).
Notation "m ;;; k" := (bind m (fun _ => k))
  (at level 61, right associativity).

(* ================================================================== *)
(** ** [encodeURIComponent] *)

Definition hex_digit (n : nat) : ascii :=
  if n <? 10 then ascii_of_nat (48 + n) else ascii_of_nat (55 + n).

Definition percent (byte : nat) : string :=
  String "%" (String (hex_digit (byte / 16))
                     (String (hex_digit (byte mod 16)) EmptyString)).

Definition uri_unreserved (c : ascii) : bool :=
  Js.is_word c ||
  existsb (fun d => Js.is_char d c)
          ["-"; "."; "!"; "~"; "*"; "'"; "("; ")"]%char.

(** A code unit below 128 is one UTF-8 byte, one below 256 two. *)
Definition encode_char (c : ascii) : string :=
  if uri_unreserved c then String c EmptyString
  else if Js.code c <? 128 then percent (Js.code c)
       else percent (192 + Js.code c / 64) ++ percent (128 + Js.code c mod 64).

Fixpoint encodeURIComponent (s : string) : string :=
  match s with
  | EmptyString => EmptyString
  | String c s' => encode_char c ++ encodeURIComponent s'
  end.

(* ================================================================== *)
(** ** A [Map] with string keys

    A JavaScript [Map] iterates in the order in which its keys were
    first inserted; setting a key that is present replaces its value
    where it stands. *)

Module JsMap.

Local Open Scope list_scope.

Section WithValue.
Context {V : Type}.

Definition t : Type := list (string * V).

Fixpoint set (k : string) (v : V) (m : t) : t :=
  match m with
  | [] => [(k, v)]
  | (k', v') :: m' =>
      if String.eqb k' k then (k', v) :: m' else (k', v') :: set k v m'
  end.

(** [new Map(entries)] *)
Definition of_entries (entries : list (string * V)) : t :=
  fold_left (fun m kv => set (fst kv) (snd kv) m) entries [].

(** [m.get(k)] *)
Fixpoint get (k : string) (m : t) : option V :=
  match m with
  | [] => None
  | (k', v') :: m' => if String.eqb k' k then Some v' else get k m'
  end.

Definition keys (m : t) : list string := map fst m.

(** [Array.from(m.values())] *)
Definition values (m : t) : list V := map snd m.

End WithValue.
End JsMap.

(* ================================================================== *)
(** ** The source adapters *)

Section Route.

Context {random_source : MathRandom}.

(** The world the route runs in: the reply to each outbound request and
    the sequence of values [Math.random()] returns. *)
Record Env : Type := mkEnv {
  net : string -> FetchResult;
  random : nat -> draw
}.

Variable env : Env.

Definition fetch (searchUrl : string) : M FetchResult :=
  emit (Fetch searchUrl) ;;; ret (net env searchUrl).

Definition console_error (label : string) : M unit :=
  emit (ConsoleError label).

Definition math_random : M draw :=
  fun w => (inr (random env (drawn w)), mkWorld (trace w) (S (drawn w))).

(** [location ? `${industry} in ${location}` : industry] *)
Definition query (industry location : string) : string :=
  if Js.truthy location then industry ++ " in " ++ location else industry.

(** [await response.text()] and [cheerio.load(html)], then the elements
    the result selector matches. *)
Definition load (b : Body) : M (list ResultNode) :=
  match b with
  | TextRejects e => throw e
  | ParseThrows e => throw e
  | Page results => ret results
  end.

(** [$(selector).each((i, element) => { if (i >= limit) return false; ... })]
    with a body that pushes at most one lead. *)
Fixpoint each (limit : nat) (body : ResultNode -> option Lead)
    (i : nat) (elements : list ResultNode) (leads : list Lead) : list Lead :=
  match elements with
  | [] => leads
  | element :: rest =>
      if limit <=? i then leads
      else each limit body (S i) rest
             match body element with
             | Some lead => (leads ++ [lead])%list
             | None => leads
             end
  end.

(** [$result.find(sel).attr('href') || ''] *)
Definition href_or_empty (element : ResultNode) : string :=
  match href element with
  | Some h => Js.or_else h ""
  | None => ""
  end.

(** Body of the [.each] callback of [scrapeFromDuckDuckGo]. *)
Definition duckduckgo_result (element : ResultNode) : option Lead :=
  let title := Js.trim (title_text element) in
  let url := href_or_empty element in
  let snippet := Js.trim (snippet_text element) in
  if Js.truthy title && Js.truthy url then
    Some {| name := title;
            url := if Js.startsWith url "http" then url else "https://" ++ url;
            description := Js.or_else snippet "No description available";
            contact := inferContact snippet |}
  else None.

(** Body of the [.each] callback of [scrapeFromBing]. *)
Definition bing_result (element : ResultNode) : option Lead :=
  let title := Js.trim (title_text element) in
  let url := href_or_empty element in
  let snippet := Js.trim (snippet_text element) in
  if Js.truthy title && Js.truthy url then
    Some {| name := title;
            url := url;
            description := Js.or_else snippet "No description available";
            contact := inferContact snippet |}
  else None.

Definition duckduckgo_url (industry location : string) : string :=
  "https://html.duckduckgo.com/html/?q=" ++
  encodeURIComponent (query industry location).

Definition bing_url (industry location : string) : string :=
  "https://www.bing.com/search?q=" ++
  encodeURIComponent (query industry location).

Definition scrapeFromDuckDuckGo (industry location : string) : M (list Lead) :=
  emit (Invoke DuckDuckGo) ;;;
  try_catch
    (response <- fetch (duckduckgo_url industry location) ;;
     match response with
     | FetchRejects e => throw e
     | Response ok body =>
         if negb ok then throw (mkError "Failed to fetch search results")
         else
           results <- load body ;;
           ret (each 20 duckduckgo_result 0 results [])
     end)
    (fun error =>
       console_error "DuckDuckGo scraping error:" ;;; ret []).

Definition scrapeFromBing (industry location : string) : M (list Lead) :=
  emit (Invoke Bing) ;;;
  try_catch
    (response <- fetch (bing_url industry location) ;;
     match response with
     | FetchRejects e => throw e
     | Response ok body =>
         if negb ok then throw (mkError "Failed to fetch from Bing")
         else
           results <- load body ;;
           ret (each 15 bing_result 0 results [])
     end)
    (fun error =>
       console_error "Bing scraping error:" ;;; ret []).

(** A reply from which an adapter extracts nothing: a network error, a
    non-success status, a body that cannot be read or parsed. *)
Definition failed (r : FetchResult) : bool :=
  match r with
  | Response true (Page _) => false
  | _ => true
  end.

(** The leads each adapter returns, read off the reply to its one
    request. *)
Definition duckduckgo_leads (industry location : string) : list Lead :=
  match net env (duckduckgo_url industry location) with
  | Response true (Page results) => each 20 duckduckgo_result 0 results []
  | _ => []
  end.

Definition bing_leads (industry location : string) : list Lead :=
  match net env (bing_url industry location) with
  | Response true (Page results) => each 15 bing_result 0 results []
  | _ => []
  end.

(* ------------------------------------------------------------------ *)
(** ** The synthetic lead generator *)

(** [Object.entries(industryPatterns)], in insertion order. *)
Definition industryPatterns : list (string * list string) :=
  [ ("restaurant", ["Bistro"; "Cafe"; "Grill"; "Kitchen"; "Diner"; "Eatery"]);
    ("dentist", ["Dental Care"; "Dentistry"; "Dental Clinic"; "Dental Associates"]);
    ("lawyer", ["Law Firm"; "Legal Services"; "Attorney"; "Legal Group"]);
    ("realtor", ["Real Estate"; "Realty"; "Properties"; "Real Estate Group"]);
    ("plumber", ["Plumbing"; "Plumbing Services"; "Plumbing Solutions"]);
    ("salon", ["Hair Salon"; "Beauty Salon"; "Spa"; "Beauty Bar"]);
    ("gym", ["Fitness Center"; "Gym"; "Health Club"; "Fitness Studio"]);
    ("hotel", ["Hotel"; "Inn"; "Resort"; "Lodge"]);
    ("default", ["Business"; "Company"; "Services"; "Solutions"; "Group"]) ]%list.

(** [industryPatterns.default] *)
Definition default_pattern : list string :=
  ["Business"; "Company"; "Services"; "Solutions"; "Group"]%list.

Definition names : list string :=
  ["Smith"; "Johnson"; "Williams"; "Brown"; "Jones"; "Garcia"; "Miller";
   "Davis"; "Rodriguez"; "Martinez"]%list.

(** [location ? [location] : [...]] *)
Definition locations (location : string) : list string :=
  if Js.truthy location then [location]%list
  else ["Downtown"; "Central"; "North"; "South"; "East"; "West"]%list.

(** The loop over the entries: the first key the lowered industry
    includes decides, otherwise [pattern] stays as it was. *)
Fixpoint find_pattern (lowered : string) (entries : list (string * list string))
    (pattern : list string) : list string :=
  match entries with
  | [] => pattern
  | (key, value) :: rest =>
      if Js.includes lowered key then value
      else find_pattern lowered rest pattern
  end.

(** [s.replace(/\s+/g, '-')]; [in_run] tells that the previous character
    was white space already replaced. *)
Fixpoint hyphenate (in_run : bool) (s : string) : string :=
  match s with
  | EmptyString => EmptyString
  | String c s' =>
      if Js.is_space c
      then if in_run then hyphenate true s' else String "-" (hyphenate true s')
      else String c (hyphenate false s')
  end.

(** [s.replace(/[^a-z0-9]/g, '')] *)
Fixpoint keep_alnum (s : string) : string :=
  match s with
  | EmptyString => EmptyString
  | String c s' =>
      if Js.between 97 122 c || Js.is_digit c
      then String c (keep_alnum s') else keep_alnum s'
  end.

(** [array[Math.floor(Math.random() * array.length)]]; an index outside
    the array reads [undefined], which a template literal prints as
    such. *)
Definition pick (r : draw) (array : list string) : string :=
  nth (floor_times r (List.length array)) array "undefined".

Definition demo_url (industry : string) (i : nat) : string :=
  "https://example-" ++ hyphenate false (Js.toLowerCase industry) ++
  "-" ++ Js.decimal i ++ ".com".

(** One iteration of the [for] loop of [generateDemoLeads]. *)
Definition demo_lead (industry : string) (pattern locs : list string)
    (i : nat) : M Lead :=
  r1 <- math_random ;;
  let randomName := pick r1 names in
  r2 <- math_random ;;
  let randomPattern := pick r2 pattern in
  r3 <- math_random ;;
  let randomLocation := pick r3 locs in
  let businessName := randomName ++ "'s " ++ randomPattern in
  r4 <- math_random ;;
  let hasContact := above_half r4 in
  ret {| name := businessName;
         url := demo_url industry i;
         description :=
           "Professional " ++ industry ++ " services in " ++ randomLocation
           ++ ". " ++
           (if hasContact then "Contact available for inquiries."
            else "Serving the local community with quality service.");
         contact :=
           if hasContact
           then Some ("contact@" ++ keep_alnum (Js.toLowerCase businessName)
                      ++ ".com")
           else None |}.

(** [for (let i = 0; i < numLeads; i++)], with [remaining = numLeads - i]. *)
Fixpoint demo_loop (industry : string) (pattern locs : list string)
    (remaining i : nat) (leads : list Lead) : M (list Lead) :=
  match remaining with
  | 0 => ret leads
  | S remaining' =>
      lead <- demo_lead industry pattern locs i ;;
      demo_loop industry pattern locs remaining' (S i) (leads ++ [lead])%list
  end.

Definition generateDemoLeads (industry location : string) : M (list Lead) :=
  emit (Invoke Demo) ;;;
  let locs := locations location in
  let pattern :=
    find_pattern (Js.toLowerCase industry) industryPatterns default_pattern in
  r <- math_random ;;
  let numLeads := Nat.min 15 (floor_times r 8 + 8) in
  demo_loop industry pattern locs numLeads 0 [].

(* ------------------------------------------------------------------ *)
(** ** The request handler *)

(** The parsed request body.  The fields are strings, as the client
    sends them and as the adapters declare their parameters; a field
    that is missing or [null] is [None]. *)
Record RequestBody : Type := mkBody {
  industry : option string;
  location : option string
}.

(** [await request.json()] *)
Inductive Request : Type :=
| Malformed (e : Error)
| Json (body : RequestBody).

(** [NextResponse.json(...)] *)
Inductive HttpResponse : Type :=
| Success (leads : list Lead) (source : string)
| Failure (status : nat) (error : string).

(** [value || ''] *)
Definition or_empty (value : option string) : string :=
  match value with Some s => s | None => "" end.

(** Lines 173-192: the three strategies, yielding the working
    sequence. *)
Definition gatherLeads (industry location : string) : M (list Lead) :=
  let leads : list Lead := [] in
  duckduckgoLeads <- scrapeFromDuckDuckGo industry location ;;
  let leads :=
    if 0 <? List.length duckduckgoLeads
    then (leads ++ duckduckgoLeads)%list else leads in
  leads <-
    (if List.length leads <? 10
     then bingLeads <- scrapeFromBing industry location ;;
          ret (leads ++ bingLeads)%list
     else ret leads) ;;
  if List.length leads <? 5
  then demoLeads <- generateDemoLeads industry location ;;
       ret (leads ++ demoLeads)%list
  else ret leads.

(** [Array.from(new Map(leads.map(lead => [lead.url, lead])).values())] *)
Definition uniqueLeads (leads : list Lead) : list Lead :=
  JsMap.values (JsMap.of_entries (map (fun lead => (url lead, lead)) leads)).

Definition respond (leads : list Lead) : HttpResponse :=
  let unique := uniqueLeads leads in
  Success (firstn 25 unique)
          (if 0 <? List.length unique then "web_scraping" else "demo").

(** [export async function POST(request)]: the body of the [try] and,
    for a thrown error, the [catch]. *)
Definition POST_try (request : Request) : M HttpResponse :=
  match request with
  | Malformed e => throw e
  | Json body =>
      match industry body with
      | None | Some EmptyString => ret (Failure 400 "Industry is required")
      | Some industry =>
          leads <- gatherLeads industry (or_empty (location body)) ;;
          ret (respond leads)
      end
  end.

Definition POST (request : Request) (w : World) : HttpResponse * World :=
  match POST_try request w with
  | (inr response, w') => (response, w')
  | (inl error, w') =>
      (Failure 500 (Js.or_else (message error) "Failed to scrape leads"),
       mkWorld (trace w' ++ [ConsoleError "Scraping error:"])%list (drawn w'))
  end.

End Route.

(* ================================================================== *)
(** ** Vocabulary of the properties *)

Definition has_url (u : string) (lead : Lead) : bool := String.eqb (url lead) u.

(** The lead appended latest among those with url [u]. *)
Fixpoint last_with (u : string) (leads : list Lead) : option Lead :=
  match leads with
  | [] => None
  | lead :: rest =>
      match last_with u rest with
      | Some later => Some later
      | None => if has_url u lead then Some lead else None
      end
  end%list.

(** The distinct elements of a list in the order of their first
    occurrence. *)
Fixpoint first_occurrences (l : list string) : list string :=
  match l with
  | [] => []
  | x :: rest =>
      x :: filter (fun y => negb (String.eqb x y)) (first_occurrences rest)
  end%list.

(** An absolute web address: one that starts with the scheme of the
    web, [http://] or [https://]. *)
Definition absolute_address (u : string) : bool :=
  Js.startsWith u "http://" || Js.startsWith u "https://".

(** The shape [https://example-restaurant-{n}.com]. *)
Definition restaurant_url (u : string) : Prop :=
  exists n : nat, u = "https://example-restaurant-" ++ Js.decimal n ++ ".com".

Definition named_and_linked (lead : Lead) : Prop :=
  name lead <> "" /\ url lead <> "".

(** Every value of the map is stored under its own url. *)
Definition keyed_by_url (m : @JsMap.t Lead) : Prop :=
  Forall (fun kv => url (snd kv) = fst kv) m.

(** The map of the leads by url, built on top of a map [m]; the route
    starts from the empty map. *)
Definition build (leads : list Lead) (m : @JsMap.t Lead) : @JsMap.t Lead :=
  fold_left (fun m kv => JsMap.set (fst kv) (snd kv) m)
            (map (fun lead => (url lead, lead)) leads) m.

(** [x] is none of the keys [ks]. *)
Definition fresh_key (ks : list string) (x : string) : bool :=
  negb (existsb (fun k => String.eqb k x) ks).

(* ================================================================== *)
(** ** A concrete world, for running the route

    Draws are thousandths: the draw [m] stands for [m mod 1000 / 1000]. *)

#[export, refine] Instance thousandths : MathRandom := {|
  draw := nat;
  floor_times r k := (r mod 1000) * k / 1000;
  above_half r := 500 <? r mod 1000
|}.
Proof.
  intros r k Hk.
  apply Nat.Div0.div_lt_upper_bound.
  pose proof (Nat.mod_upper_bound r 1000).
  nia.
Defined.

Definition sample_page : list ResultNode :=
  [ mkNode "  Joe's Pizza " (Some "joespizza.example/menu")
           "Call (555) 123-4567 now";
    mkNode "Luigi's" (Some "https://luigis.example")
           " Contact us at sales@example.com today ";
    mkNode "" (Some "https://untitled.example") "no title";
    mkNode "No link" None "" ]%list.

(** Every request is answered with [sample_page]. *)
Definition sample_env : Env :=
  mkEnv (fun _ => Response true (Page sample_page)) (fun n => 137 * n + 400).

(** Every request fails on the network. *)
Definition offline_env : Env :=
  mkEnv (fun _ => FetchRejects (mkError "fetch failed")) (fun n => 137 * n + 400).

(** Bing answers with one result whose link is relative, DuckDuckGo with
    one whose link is a bare host name that begins with [http]. *)
Definition relative_link_env : Env :=
  mkEnv (fun u =>
           if Js.startsWith u "https://www.bing.com/"
           then Response true
                  (Page [mkNode "Joe's Pizza" (Some "/local/details?id=1") ""])
           else Response true
                  (Page [mkNode "HTTP tools" (Some "httpbin.org/get") ""]))%list
        (fun n => n).

Definition fresh : World := mkWorld [] 0.

(** A working sequence in which the first and the last lead share a
    url. *)
Definition early_lead : Lead :=
  mkLead "Joe's Pizza" "https://joes.example" "from the first source" None.

Definition other_lead : Lead :=
  mkLead "Luigi's" "https://luigis.example" "No description available" None.

Definition late_lead : Lead :=
  mkLead "Joe's Pizza & Grill" "https://joes.example" "from the second source"
         (Some "joe@joes.example").

Definition sample_leads : list Lead :=
  [early_lead; other_lead; late_lead]%list.

(* ================================================================== *)
(** ** The page: [src/app/page.tsx]

    The state of the component, the click handler [scrapeLeads] that
    calls the route, and the text [exportToCSV] puts in the download. *)

Module Page.

(** The [useState] cells.  [leads] is [None] when it was set from a
    response without a [leads] field. *)
Record State : Type := mkState {
  industry : string;
  location : string;
  leads : option (list Lead);
  loading : bool;
  error : string
}.

(** What [fetch('/api/scrape', ...)] does with the request: it reaches
    the route, or it rejects. *)
Inductive Transport : Type :=
| Reaches
| Rejects (e : Error).

(** The response as the client reads it: [response.ok] and the fields
    [leads] and [error] of [await response.json()]. *)
Record Reply : Type := mkReply {
  ok : bool;
  data_leads : option (list Lead);
  data_error : option string
}.

Definition reply_of (r : HttpResponse) : Reply :=
  match r with
  | Success ls _ => mkReply true (Some ls) None
  | Failure status e =>
      mkReply ((200 <=? status) && (status <=? 299)) None (Some e)
  end.

(** [data.error || 'Failed to scrape leads'] *)
Definition thrown_message (r : Reply) : string :=
  match data_error r with
  | Some e => Js.or_else e "Failed to scrape leads"
  | None => "Failed to scrape leads"
  end.

(** [err.message || 'An error occurred while scraping'] *)
Definition shown_message (m : string) : string :=
  Js.or_else m "An error occurred while scraping".

Section Handler.

Context {random_source : MathRandom} (env : Env).

(** [const scrapeLeads = async () => { ... }]; the world is that of the
    route, which the request may reach. *)
Definition scrapeLeads (transport : Transport) (st : State) (w : World)
  : State * World :=
  if negb (Js.truthy (Js.trim (industry st)))
  then (mkState (industry st) (location st) (leads st) (loading st)
                "Please enter an industry", w)
  else
    match transport with
    | Rejects e =>
        (mkState (industry st) (location st) (Some []%list) false
                 (shown_message (message e)), w)
    | Reaches =>
        let (response, w') :=
          POST env (Json (mkBody (Some (industry st)) (Some (location st)))) w
        in
        let r := reply_of response in
        if negb (ok r)
        then (mkState (industry st) (location st) (Some []%list) false
                      (shown_message (thrown_message r)), w')
        else (mkState (industry st) (location st) (data_leads r) false "", w')
    end.

End Handler.

(** [array.join(sep)] *)
Fixpoint join (sep : string) (parts : list string) : string :=
  match parts with
  | nil => ""
  | cons x nil => x
  | cons x rest => x ++ sep ++ join sep rest
  end.

Definition double_quote : ascii := "034"%char.

Definition line_feed : ascii := "010"%char.

Definition headers : list string :=
  ["Name"; "URL"; "Description"; "Contact"]%list.

(** [lead.contact || 'N/A'] *)
Definition contact_cell (lead : Lead) : string :=
  match contact lead with
  | Some c => Js.or_else c "N/A"
  | None => "N/A"
  end.

Definition row (lead : Lead) : list string :=
  [name lead; url lead; description lead; contact_cell lead]%list.

(** The template literal that wraps a cell in double quotes. *)
Definition quoted (cell : string) : string :=
  String double_quote (cell ++ String double_quote "").

Definition row_text (cells : list string) : string :=
  join "," (map quoted cells).

(** The text of the file. *)
Definition csv (ls : list Lead) : string :=
  join (String line_feed "")
       (join "," headers :: map (fun l => row_text (row l)) ls).

(** [exportToCSV]: nothing for an empty list, otherwise the text that is
    handed to the download. *)
Definition exportToCSV (ls : list Lead) : option string :=
  if List.length ls =? 0 then None else Some (csv ls).

End Page.

(* ================================================================== *)
(** ** Further vocabulary *)

Definition chars (s : string) : list ascii := list_ascii_of_string s.


(** [%] or a hexadecimal digit in upper case. *)
Definition is_escape_char (c : ascii) : bool :=
  Js.is_char "%" c || Js.is_digit c || Js.between 65 70 c.

(** Every field of the lead is free of the character [c]. *)
Definition fields_without (c : ascii) (lead : Lead) : Prop :=
  Forall (fun cell => ~ In c (chars cell)) (Page.row lead).

(** The elements of [l] on which [f] is defined, in order. *)
Fixpoint filter_map {A B} (f : A -> option B) (l : list A) : list B :=
  match l with
  | [] => []
  | x :: rest =>
      match f x with
      | Some y => y :: filter_map f rest
      | None => filter_map f rest
      end
  end%list.

(** Number of occurrences of a character. *)
Fixpoint count_char (c : ascii) (s : string) : nat :=
  match s with
  | EmptyString => 0
  | String d s' => (if Ascii.eqb c d then 1 else 0) + count_char c s'
  end.

(** All the suffix phrases of the table. *)
Definition all_suffixes : list string :=
  flat_map snd industryPatterns.

(** The events of one adapter call: entry, the request, and the error
    log when the reply yields nothing. *)
Definition adapter_events (s : Source) (searchUrl label : string)
    (reply : FetchResult) : list Event :=
  (Invoke s :: Fetch searchUrl ::
   (if failed reply then [ConsoleError label] else []))%list.

(** The lead the generator builds in iteration [i] from its four
    draws. *)
Definition demo_record {random_source : MathRandom}
    (industry : string) (pattern locs : list string) (i : nat)
    (r1 r2 r3 r4 : draw) : Lead :=
  let businessName := pick r1 names ++ "'s " ++ pick r2 pattern in
  {| name := businessName;
     url := demo_url industry i;
     description :=
       "Professional " ++ industry ++ " services in " ++ pick r3 locs
       ++ ". " ++
       (if above_half r4 then "Contact available for inquiries."
        else "Serving the local community with quality service.");
     contact :=
       if above_half r4
       then Some ("contact@" ++ keep_alnum (Js.toLowerCase businessName)
                  ++ ".com")
       else None |}.

(** The string neither starts nor ends with white space. *)
Definition no_outer_space (s : string) : Prop :=
  (forall c rest, s = String c rest -> Js.is_space c = false) /\
  (forall front c, s = front ++ String c "" -> Js.is_space c = false).

(** Neither white space nor an upper-case letter of the basic
    alphabet. *)
Definition slug_char (c : ascii) : bool :=
  negb (Js.is_space c) && negb (Js.between 65 90 c).

(** A character [encodeURIComponent] may produce. *)
Definition url_safe (c : ascii) : bool :=
  uri_unreserved c || is_escape_char c.

(** The lines of the export below the header line, each led by its line
    feed. *)
Fixpoint rows_text (ls : list Lead) : string :=
  match ls with
  | nil => ""
  | cons l rest =>
      String Page.line_feed (Page.row_text (Page.row l) ++ rows_text rest)
  end.

(** [m] occurs in [text]. *)
Definition substring (m text : string) : Prop :=
  exists pre post, text = pre ++ m ++ post.

(* ================================================================== *)
(** ** Further concrete inputs *)

(** A result element with a phone number in its snippet. *)
Definition sample_element : ResultNode :=
  mkNode "  Joe's Pizza " (Some "joespizza.example/menu")
         "Call (555) 123-4567 now".

(** The page with a visible industry, and with a blank one. *)
Definition pizza_page : Page.State :=
  Page.mkState "pizza" "" (Some []%list) false "".

Definition blank_page : Page.State :=
  Page.mkState "  " "" (Some []%list) false "".

(* ================================================================== *)
(** * Properties *)

(** ** The backtracking matcher finds exactly the declared matches *)

Module RegexFacts.

Local Open Scope list_scope.

Lemma run_le p s : run p s <= List.length s.
Proof.
  induction s as [|c s IH]; simpl; [lia|].
  destruct (p c); simpl; lia.
Qed.

Lemma run_firstn p s k :
  k <= run p s -> Forall (fun c => p c = true) (firstn k s).
Proof.
  revert k; induction s as [|c s IH]; intros k Hk; simpl in *.
  - destruct k; constructor.
  - destruct k as [|k]; [constructor|].
    destruct (p c) eqn:E; [|lia].
    simpl. constructor; [assumption|]. apply IH. lia.
Qed.

Lemma run_app p w t :
  Forall (fun c => p c = true) w -> List.length w <= run p (w ++ t).
Proof.
  induction 1 as [|c w Hc _ IH]; simpl; [lia|].
  rewrite Hc. lia.
Qed.

Lemma firstn_plus {A} (k n : nat) (s : list A) :
  firstn (k + n) s = firstn k s ++ firstn n (skipn k s).
Proof.
  revert s; induction k as [|k IH]; intros s; simpl; [reflexivity|].
  destruct s as [|c s]; simpl.
  - now rewrite firstn_nil.
  - now rewrite IH.
Qed.

Lemma skipn_exact {A} (w t : list A) : skipn (List.length w) (w ++ t) = t.
Proof. induction w; simpl; auto. Qed.

Lemma firstn_exact {A} (w t : list A) : firstn (List.length w) (w ++ t) = w.
Proof. induction w; simpl; congruence. Qed.

Lemma backtrack_sound hi lo try n :
  lo <= hi -> backtrack hi lo try = Some n ->
  exists k, lo <= k <= hi /\ try k = Some n.
Proof.
  induction hi as [|hi IH]; simpl; intros Hle H.
  - destruct (try 0) eqn:E; [|discriminate].
    exists 0. split; [lia|congruence].
  - destruct (try (S hi)) eqn:E.
    + exists (S hi). split; [lia|congruence].
    + destruct (lo <=? hi) eqn:El; [|discriminate].
      apply Nat.leb_le in El.
      destruct (IH El H) as (k & Hk & Ht).
      exists k. split; [lia|assumption].
Qed.

Lemma backtrack_complete hi lo try k :
  lo <= k <= hi -> try k <> None -> backtrack hi lo try <> None.
Proof.
  induction hi as [|hi IH]; simpl; intros Hk Ht.
  - replace k with 0 in Ht by lia.
    destruct (try 0); [discriminate|contradiction].
  - destruct (try (S hi)) eqn:E; [discriminate|].
    destruct (Nat.eq_dec k (S hi)) as [->|Hne]; [congruence|].
    assert (El : (lo <=? hi) = true) by (apply Nat.leb_le; lia).
    rewrite El. apply IH; [lia|assumption].
Qed.

Lemma allowed_range q avail k :
  qmin q <= k <= qcap q avail <-> allowed q k /\ k <= avail.
Proof. destruct q; unfold qmin, qcap, allowed; lia. Qed.

Lemma match_here_sound r : forall s n,
  match_here r s = Some n ->
  n <= List.length s /\ Matches r (firstn n s).
Proof.
  induction r as [|a r IH]; intros s n H; simpl in H.
  - injection H as <-. split; [lia|]. simpl. constructor.
  - destruct (qcap (qnt a) (run (cls a) s) <? qmin (qnt a)) eqn:E;
      [discriminate|].
    apply Nat.ltb_ge in E.
    apply backtrack_sound in H; [|assumption].
    destruct H as (k & Hk & Ht).
    destruct (match_here r (skipn k s)) as [n'|] eqn:Em; [|discriminate].
    injection Ht as <-.
    apply allowed_range in Hk. destruct Hk as [Hq Hav].
    destruct (IH _ _ Em) as [Hlen HM].
    pose proof (run_le (cls a) s) as Hrun.
    rewrite length_skipn in Hlen.
    split; [lia|].
    rewrite firstn_plus. constructor; [| |assumption].
    + now apply run_firstn.
    + rewrite length_firstn. replace (Nat.min k (List.length s)) with k by lia.
      assumption.
Qed.

Lemma match_here_complete r : forall w t,
  Matches r w -> match_here r (w ++ t) <> None.
Proof.
  induction r as [|a r IH]; intros w t HM; simpl; [discriminate|].
  inversion HM as [|a' r' w1 w2 Hall Hq HM2]; subst.
  assert (Hk : qmin (qnt a) <= List.length w1
               <= qcap (qnt a) (run (cls a) ((w1 ++ w2) ++ t))).
  { apply allowed_range. split; [assumption|].
    rewrite <- app_assoc. now apply run_app. }
  destruct (_ <? _) eqn:E; [apply Nat.ltb_lt in E; lia|].
  apply backtrack_complete with (k := List.length w1); [assumption|].
  rewrite <- app_assoc, skipn_exact.
  specialize (IH w2 t HM2).
  destruct (match_here r (w2 ++ t)); [discriminate|contradiction].
Qed.

(** The leftmost search returns a match at the least index at which
    some match starts. *)
Lemma exec_from_some r : forall s i j m,
  exec_from r s i = Some (j, m) ->
  exists pre post,
    s = pre ++ m ++ post /\ j = i + List.length pre /\ Matches r m /\
    (forall pre' w' post', s = pre' ++ w' ++ post' -> Matches r w' ->
                           List.length pre <= List.length pre').
Proof.
  induction s as [|c s IH]; intros i j m H; simpl in H.
  - destruct (match_here r []) as [n|] eqn:E; [|discriminate].
    injection H as <- <-.
    destruct (match_here_sound _ _ _ E) as [_ HM].
    exists [], []. rewrite firstn_nil in *. repeat split; auto; simpl; lia.
  - destruct (match_here r (c :: s)) as [n|] eqn:E.
    + injection H as <- <-.
      destruct (match_here_sound _ _ _ E) as [_ HM].
      exists [], (skipn n (c :: s)).
      repeat split; auto; simpl; try lia.
      now rewrite (firstn_skipn n (c :: s)).
    + destruct (IH _ _ _ H) as (pre & post & Hs & Hj & HM & Hleft).
      exists (c :: pre), post. subst s. repeat split; auto; simpl; try lia.
      intros pre' w' post' Heq HM'.
      destruct pre' as [|c' pre'].
      * simpl in Heq. exfalso.
        apply (match_here_complete r w' post' HM'). now rewrite <- Heq.
      * simpl in Heq. injection Heq as _ Heq.
        simpl. apply le_n_S. eapply Hleft; eauto.
Qed.

Lemma exec_from_none r : forall s i,
  exec_from r s i = None ->
  forall pre w post, s = pre ++ w ++ post -> ~ Matches r w.
Proof.
  induction s as [|c s IH]; intros i H pre w post Heq HM; simpl in H.
  - destruct (match_here r []) eqn:E; [discriminate|].
    symmetry in Heq. apply app_eq_nil in Heq. destruct Heq as [-> Heq].
    apply app_eq_nil in Heq. destruct Heq as [-> ->].
    apply (match_here_complete r [] [] HM). exact E.
  - destruct (match_here r (c :: s)) eqn:E; [discriminate|].
    destruct pre as [|c' pre]; simpl in Heq.
    + apply (match_here_complete r w post HM). now rewrite <- Heq.
    + injection Heq as _ Heq. eapply IH; eauto.
Qed.

End RegexFacts.

(** ** Strings as lists of characters *)

Module StringFacts.

Lemma list_of_append (a b : string) :
  list_ascii_of_string (a ++ b) =
  (list_ascii_of_string a ++ list_ascii_of_string b)%list.
Proof. induction a as [|c a IH]; simpl; congruence. Qed.

Lemma string_of_app (a b : list ascii) :
  string_of_list_ascii (a ++ b)%list =
  string_of_list_ascii a ++ string_of_list_ascii b.
Proof. induction a as [|c a IH]; simpl; congruence. Qed.

Lemma length_list_of (s : string) :
  List.length (list_ascii_of_string s) = String.length s.
Proof. induction s; simpl; congruence. Qed.

Lemma append_nil_r (s : string) : s ++ "" = s.
Proof. induction s; simpl; congruence. Qed.

Lemma append_assoc (a b c : string) : (a ++ b) ++ c = a ++ b ++ c.
Proof. induction a; simpl; congruence. Qed.

Lemma append_inv_head (p a b : string) : p ++ a = p ++ b -> a = b.
Proof. induction p; simpl; intros H; [assumption|]. injection H. auto. Qed.

Lemma append_length (a b : string) :
  String.length (a ++ b) = String.length a + String.length b.
Proof. induction a; simpl; congruence. Qed.

Lemma truthy_iff (s : string) : Js.truthy s = true <-> s <> "".
Proof. destruct s; simpl; split; congruence. Qed.

Lemma truthy_append_l (a b : string) :
  Js.truthy a = true -> Js.truthy (a ++ b) = true.
Proof. destruct a; simpl; congruence. Qed.

Lemma truthy_append_r (a b : string) :
  Js.truthy b = true -> Js.truthy (a ++ b) = true.
Proof. destruct a; simpl; auto. Qed.

End StringFacts.

(** ** Contact inference *)

Module ContactFacts.

Import RegexFacts StringFacts.

Lemma match0_some r text m :
  match0 r text = Some m -> FirstMatch r text m.
Proof.
  unfold match0, exec. intros H.
  destruct (exec_from r (list_ascii_of_string text) 0) as [[j w]|] eqn:E;
    [|discriminate].
  simpl in H. injection H as <-.
  destruct (exec_from_some _ _ _ _ _ E) as (pre & post & Hs & _ & HM & Hleft).
  exists (List.length pre). split.
  - exists (string_of_list_ascii pre), (string_of_list_ascii post).
    repeat split.
    + rewrite <- !string_of_app, <- Hs.
      now rewrite string_of_list_ascii_of_string.
    + now rewrite <- length_list_of, list_ascii_of_string_of_list_ascii.
    + now rewrite list_ascii_of_string_of_list_ascii.
  - intros k m' (pre' & post' & Ht & Hk & HM').
    rewrite <- Hk, <- length_list_of.
    eapply Hleft; [|exact HM'].
    now rewrite Ht, !list_of_append.
Qed.

Lemma match0_none r text : match0 r text = None -> NoMatch r text.
Proof.
  unfold match0, exec. intros H k m' (pre & post & Ht & _ & HM).
  destruct (exec_from r (list_ascii_of_string text) 0) eqn:E;
    [discriminate|].
  eapply exec_from_none; [exact E| |exact HM].
  now rewrite Ht, !list_of_append.
Qed.

Lemma Matches_min_length r w : Matches r w -> min_length r <= List.length w.
Proof.
  induction 1 as [|a r w1 w2 _ Hq _ IH]; simpl; [lia|].
  rewrite length_app.
  assert (qmin (qnt a) <= List.length w1)
    by (destruct (qnt a); unfold qmin, allowed in *; lia).
  lia.
Qed.

Lemma FirstMatch_truthy r text m :
  0 < min_length r -> FirstMatch r text m -> Js.truthy m = true.
Proof.
  intros Hpos (i & (pre & post & _ & _ & HM) & _).
  apply Matches_min_length in HM. rewrite length_list_of in HM.
  destruct m; simpl in *; [lia|reflexivity].
Qed.

Lemma match0_decide r text :
  (exists m, match0 r text = Some m /\ FirstMatch r text m) \/
  (match0 r text = None /\ NoMatch r text).
Proof.
  destruct (match0 r text) as [m|] eqn:E.
  - left. exists m. split; [reflexivity|]. now apply match0_some.
  - right. split; [reflexivity|]. now apply match0_none.
Qed.

End ContactFacts.

(** ** Deduplication through the map *)

Module DedupFacts.

Import JsMap.
Local Open Scope list_scope.

Section Generic.
Context {V : Type}.
Implicit Types (m : @JsMap.t V) (k : string) (v : V).

Lemma get_set_eq k v m : get k (set k v m) = Some v.
Proof.
  induction m as [|[k' v'] m IH]; simpl.
  - now rewrite String.eqb_refl.
  - destruct (String.eqb k' k) eqn:E; simpl; rewrite E; auto.
Qed.

Lemma get_set_ne k k0 v m : k <> k0 -> get k0 (set k v m) = get k0 m.
Proof.
  intros Hne. induction m as [|[k' v'] m IH]; simpl.
  - destruct (String.eqb k k0) eqn:E; [|reflexivity].
    apply String.eqb_eq in E. contradiction.
  - destruct (String.eqb k' k) eqn:E; simpl.
    + apply String.eqb_eq in E. subst k'.
      destruct (String.eqb k k0) eqn:E0; [|reflexivity].
      apply String.eqb_eq in E0. contradiction.
    + now rewrite IH.
Qed.

Lemma keys_set k v m :
  keys (set k v m) = if fresh_key (keys m) k then keys m ++ [k] else keys m.
Proof.
  unfold fresh_key.
  induction m as [|[k' v'] m IH]; simpl; [reflexivity|].
  destruct (String.eqb k' k) eqn:E; simpl; [reflexivity|].
  unfold keys in *. rewrite IH.
  now destruct (existsb _ (map fst m)).
Qed.

Lemma In_set k v m kv :
  In kv (set k v m) -> kv = (k, v) \/ In kv m.
Proof.
  induction m as [|[k' v'] m IH]; simpl.
  - intros [<-|[]]. now left.
  - destruct (String.eqb k' k) eqn:E; simpl.
    + apply String.eqb_eq in E. subst k'.
      intros [<-|H]; auto.
    + intros [<-|H]; auto. destruct (IH H); auto.
Qed.

Lemma get_In k v m : NoDup (keys m) -> In (k, v) m -> get k m = Some v.
Proof.
  induction m as [|[k' v'] m IH]; simpl; intros Hnd Hin; [contradiction|].
  inversion Hnd as [|? ? Hnotin Hnd']; subst.
  destruct Hin as [H|H].
  - injection H as -> ->. now rewrite String.eqb_refl.
  - destruct (String.eqb k' k) eqn:E; [|now apply IH].
    apply String.eqb_eq in E. subst k'. exfalso. apply Hnotin.
    change k with (fst (k, v)). now apply in_map.
Qed.

End Generic.

Lemma filter_filter {A} (p q r : A -> bool) (l : list A) :
  (forall y, r y = q y && p y) ->
  filter p (filter q l) = filter r l.
Proof.
  intros Hr. induction l as [|x l IH]; simpl; [reflexivity|].
  rewrite Hr. destruct (q x) eqn:Eq; simpl; [|assumption].
  destruct (p x); now rewrite IH.
Qed.

Lemma fresh_key_snoc ks k y :
  fresh_key (ks ++ [k]) y = negb (String.eqb k y) && fresh_key ks y.
Proof.
  unfold fresh_key. rewrite existsb_app. simpl.
  destruct (existsb _ ks), (String.eqb k y); reflexivity.
Qed.

Lemma fresh_key_absorb ks k y :
  fresh_key ks k = false ->
  fresh_key ks y = negb (String.eqb k y) && fresh_key ks y.
Proof.
  intros Hk. destruct (String.eqb k y) eqn:E; simpl; [|reflexivity].
  apply String.eqb_eq in E. now subst y.
Qed.

Lemma NoDup_first_occurrences l : NoDup (first_occurrences l).
Proof.
  induction l as [|x l IH]; simpl; constructor.
  - rewrite filter_In. intros [_ H]. now rewrite String.eqb_refl in H.
  - now apply NoDup_filter.
Qed.

Lemma In_first_occurrences l x : In x (first_occurrences l) <-> In x l.
Proof.
  induction l as [|y l IH]; simpl; [tauto|].
  rewrite filter_In, IH.
  destruct (String.eqb y x) eqn:E.
  - apply String.eqb_eq in E. subst. simpl. intuition congruence.
  - simpl. tauto.
Qed.

Lemma build_cons l leads (m : @JsMap.t Lead) :
  build (l :: leads) m = build leads (set (url l) l m).
Proof. reflexivity. Qed.

Lemma keys_build leads : forall m : @JsMap.t Lead,
  keys (build leads m) =
  keys m ++ filter (fresh_key (keys m)) (first_occurrences (map url leads)).
Proof.
  induction leads as [|l leads IH]; intros m.
  - simpl. now rewrite app_nil_r.
  - rewrite build_cons, IH, keys_set. simpl.
    destruct (fresh_key (keys m) (url l)) eqn:E.
    + rewrite <- app_assoc. simpl. do 2 f_equal.
      symmetry. apply filter_filter. intros y. apply fresh_key_snoc.
    + f_equal. symmetry. apply filter_filter. intros y.
      now apply fresh_key_absorb.
Qed.

Lemma get_build leads : forall (m : @JsMap.t Lead) u,
  get u (build leads m) =
  match last_with u leads with
  | Some l => Some l
  | None => get u m
  end.
Proof.
  induction leads as [|l leads IH]; intros m u; [reflexivity|].
  rewrite build_cons, IH. simpl.
  destruct (last_with u leads); [reflexivity|].
  unfold has_url. destruct (String.eqb (url l) u) eqn:E.
  - apply String.eqb_eq in E. subst u. apply get_set_eq.
  - apply get_set_ne. intros H. rewrite H, String.eqb_refl in E. discriminate.
Qed.

Lemma keyed_build leads : forall m : @JsMap.t Lead,
  keyed_by_url m -> keyed_by_url (build leads m).
Proof.
  induction leads as [|l leads IH]; intros m Hm; [assumption|].
  rewrite build_cons. apply IH. unfold keyed_by_url in *. rewrite Forall_forall in *.
  intros kv Hin. apply In_set in Hin. destruct Hin as [->|Hin]; auto.
Qed.

Lemma keys_of_entries leads :
  keys (of_entries (map (fun lead => (url lead, lead)) leads)) =
  first_occurrences (map url leads).
Proof.
  change (of_entries _) with (build leads []).
  rewrite keys_build. simpl.
  induction (first_occurrences (map url leads)) as [|x l IH];
    simpl; congruence.
Qed.

Lemma keyed_of_entries leads :
  keyed_by_url (of_entries (map (fun lead => (url lead, lead)) leads)).
Proof. apply (keyed_build leads []). constructor. Qed.

Lemma urls_of_values (m : @JsMap.t Lead) :
  keyed_by_url m -> map url (values m) = keys m.
Proof.
  induction 1 as [|[k v] m Hkv _ IH]; simpl in *; congruence.
Qed.

Lemma filter_values_absent u (m : @JsMap.t Lead) :
  keyed_by_url m -> ~ In u (keys m) -> filter (has_url u) (values m) = [].
Proof.
  induction 1 as [|[k v] m Hkv _ IH]; simpl in *; intros Hnotin;
    [reflexivity|].
  unfold has_url at 1. rewrite Hkv.
  destruct (String.eqb k u) eqn:E.
  - apply String.eqb_eq in E. tauto.
  - apply IH. tauto.
Qed.

Lemma filter_values u (m : @JsMap.t Lead) :
  NoDup (keys m) -> keyed_by_url m ->
  filter (has_url u) (values m) =
  match get u m with Some v => [v] | None => [] end.
Proof.
  intros Hnd Hk. induction Hk as [|[k v] m Hkv Hk IH]; simpl in *;
    [reflexivity|].
  apply NoDup_cons_iff in Hnd. destruct Hnd as [Hnotin Hnd'].
  unfold has_url at 1. rewrite Hkv.
  destruct (String.eqb k u) eqn:E.
  - apply String.eqb_eq in E. subst u.
    now rewrite (filter_values_absent k m Hk Hnotin).
  - now apply IH.
Qed.

Lemma last_with_split u leads l :
  last_with u leads = Some l ->
  exists before after,
    leads = before ++ l :: after /\ url l = u /\
    Forall (fun x => url x <> u) after.
Proof.
  induction leads as [|x leads IH]; simpl; [discriminate|].
  destruct (last_with u leads) as [later|] eqn:E.
  - intros H. injection H as ->.
    destruct (IH eq_refl) as (before & after & -> & Hu & Hafter).
    exists (x :: before), after. auto.
  - unfold has_url. destruct (String.eqb (url x) u) eqn:Ex; [|discriminate].
    intros H. injection H as ->. apply String.eqb_eq in Ex.
    exists [], leads. repeat split; auto.
    clear IH. induction leads as [|y leads IH]; constructor; simpl in E.
    + destruct (last_with u leads); [discriminate|].
      unfold has_url in E. destruct (String.eqb (url y) u) eqn:Ey;
        [discriminate|].
      now apply String.eqb_neq.
    + apply IH. destruct (last_with u leads); [discriminate|reflexivity].
Qed.

Lemma last_with_present u leads :
  filter (has_url u) leads <> [] -> last_with u leads <> None.
Proof.
  induction leads as [|x leads IH]; simpl; [congruence|].
  destruct (last_with u leads); [discriminate|].
  destruct (has_url u x); [discriminate|]. intros H. now apply IH in H.
Qed.

Lemma unique_get leads u :
  filter (has_url u) (uniqueLeads leads) =
  match last_with u leads with Some l => [l] | None => [] end.
Proof.
  unfold uniqueLeads. rewrite filter_values.
  - change (of_entries _) with (build leads []).
    rewrite get_build. now destruct (last_with u leads).
  - rewrite keys_of_entries. apply NoDup_first_occurrences.
  - apply keyed_of_entries.
Qed.

Lemma In_unique_last leads l :
  In l (uniqueLeads leads) -> last_with (url l) leads = Some l.
Proof.
  intros Hin.
  assert (Hf : In l (filter (has_url (url l)) (uniqueLeads leads))).
  { apply filter_In. split; [assumption|]. apply String.eqb_refl. }
  rewrite unique_get in Hf.
  destruct (last_with (url l) leads) as [x|]; simpl in Hf; [|contradiction].
  destruct Hf as [->|[]]. reflexivity.
Qed.

Lemma In_unique leads l : In l (uniqueLeads leads) -> In l leads.
Proof.
  intros H. apply In_unique_last in H.
  destruct (last_with_split _ _ _ H) as (before & after & -> & _).
  apply in_or_app. right. now left.
Qed.

Lemma urls_unique leads :
  map url (uniqueLeads leads) = first_occurrences (map url leads).
Proof.
  unfold uniqueLeads.
  rewrite urls_of_values by apply keyed_of_entries.
  apply keys_of_entries.
Qed.

End DedupFacts.

(** C4. Deduplication is last-write-wins on url: when two or more leads
    of the working sequence share a url, the deduplicated sequence has
    exactly one entry with that url, and it is the lead appended latest
    among them (so its name, description and contact are that lead's). *)
Theorem dedup_last_write_wins (leads : list Lead) (u : string) :
  2 <= List.length (filter (has_url u) leads) ->
  exists before latest after,
    leads = (before ++ latest :: after)%list /\
    url latest = u /\
    Forall (fun x => url x <> u) after /\
    filter (has_url u) (uniqueLeads leads) = [latest]%list.
Proof.
  intros Hshared.
  destruct (last_with u leads) as [l|] eqn:E.
  - destruct (DedupFacts.last_with_split _ _ _ E)
      as (before & after & Hsplit & Hu & Hafter).
    exists before, l, after. repeat split; try assumption.
    now rewrite DedupFacts.unique_get, E.
  - exfalso. apply (DedupFacts.last_with_present u leads); [|assumption].
    intros H. rewrite H in Hshared. simpl in Hshared. lia.
Qed.

(** C10. The deduplicated sequence lists the urls in the order of their
    first occurrence in the working sequence, while each entry is the
    last lead appended with its url. *)
Theorem dedup_first_occurrence_order (leads : list Lead) :
  map url (uniqueLeads leads) = first_occurrences (map url leads) /\
  (forall l, In l (uniqueLeads leads) -> last_with (url l) leads = Some l).
Proof.
  split.
  - apply DedupFacts.urls_unique.
  - intros l. apply DedupFacts.In_unique_last.
Qed.

(* ================================================================== *)
(** ** The adapters and the generator, run *)

Module RouteFacts.

Import StringFacts.
Local Open Scope list_scope.

Section WithWorld.

Context {random_source : MathRandom} (env : Env).

(** Each adapter returns normally, whatever the reply, with the leads
    read off the reply; it enters once, fetches once and logs a failed
    reply. *)
Lemma scrapeFromDuckDuckGo_run industry location w :
  scrapeFromDuckDuckGo env industry location w =
  (inr (duckduckgo_leads env industry location),
   mkWorld
     (trace w ++
      Invoke DuckDuckGo :: Fetch (duckduckgo_url industry location) ::
      (if failed (net env (duckduckgo_url industry location))
       then [ConsoleError "DuckDuckGo scraping error:"] else []))
     (drawn w)).
Proof.
  unfold scrapeFromDuckDuckGo, duckduckgo_leads.
  generalize (duckduckgo_url industry location). intros u.
  unfold try_catch, bind, fetch, console_error, emit, ret.
  destruct (net env u) as [e|[|] [e|e|results]]; cbn;
    now rewrite <- ?app_assoc.
Qed.

Lemma scrapeFromBing_run industry location w :
  scrapeFromBing env industry location w =
  (inr (bing_leads env industry location),
   mkWorld
     (trace w ++
      Invoke Bing :: Fetch (bing_url industry location) ::
      (if failed (net env (bing_url industry location))
       then [ConsoleError "Bing scraping error:"] else []))
     (drawn w)).
Proof.
  unfold scrapeFromBing, bing_leads.
  generalize (bing_url industry location). intros u.
  unfold try_catch, bind, fetch, console_error, emit, ret.
  destruct (net env u) as [e|[|] [e|e|results]]; cbn;
    now rewrite <- ?app_assoc.
Qed.

Lemma each_Forall (P : Lead -> Prop) limit body :
  (forall element lead, body element = Some lead -> P lead) ->
  forall elements i leads,
    Forall P leads -> Forall P (each limit body i elements leads).
Proof.
  intros Hbody elements.
  induction elements as [|element rest IH]; intros i leads Hleads; simpl;
    [assumption|].
  destruct (limit <=? i); [assumption|].
  apply IH. destruct (body element) as [lead|] eqn:E; [|assumption].
  apply Forall_app. split; [assumption|].
  constructor; [|constructor]. eapply Hbody; eauto.
Qed.

Lemma each_length limit body : forall elements i leads,
  i <= limit ->
  List.length (each limit body i elements leads) <=
  List.length leads + (limit - i).
Proof.
  induction elements as [|element rest IH]; intros i leads Hi; simpl;
    [lia|].
  destruct (limit <=? i) eqn:E; [lia|].
  apply Nat.leb_gt in E.
  etransitivity; [apply IH; lia|].
  destruct (body element); rewrite ?length_app; simpl; lia.
Qed.

Lemma duckduckgo_result_named element lead :
  duckduckgo_result element = Some lead -> named_and_linked lead.
Proof.
  unfold duckduckgo_result, named_and_linked.
  destruct (Js.truthy (Js.trim (title_text element))) eqn:Et;
    [|discriminate].
  destruct (Js.truthy (href_or_empty element)) eqn:Eu; [|discriminate].
  simpl. intros H. injection H as <-. simpl. split.
  - now apply truthy_iff.
  - destruct (Js.startsWith _ _); [now apply truthy_iff|discriminate].
Qed.

Lemma bing_result_named element lead :
  bing_result element = Some lead -> named_and_linked lead.
Proof.
  unfold bing_result, named_and_linked.
  destruct (Js.truthy (Js.trim (title_text element))) eqn:Et;
    [|discriminate].
  destruct (Js.truthy (href_or_empty element)) eqn:Eu; [|discriminate].
  simpl. intros H. injection H as <-. simpl.
  split; now apply truthy_iff.
Qed.

Lemma duckduckgo_leads_named industry location :
  Forall named_and_linked (duckduckgo_leads env industry location).
Proof.
  unfold duckduckgo_leads.
  destruct (net env _) as [e|[|] [e|e|results]]; try constructor.
  apply each_Forall; [apply duckduckgo_result_named|constructor].
Qed.

Lemma bing_leads_named industry location :
  Forall named_and_linked (bing_leads env industry location).
Proof.
  unfold bing_leads.
  destruct (net env _) as [e|[|] [e|e|results]]; try constructor.
  apply each_Forall; [apply bing_result_named|constructor].
Qed.

Lemma demo_lead_run industry pattern locs i w :
  exists lead,
    demo_lead env industry pattern locs i w =
      (inr lead, mkWorld (trace w) (4 + drawn w)) /\
    url lead = demo_url industry i /\ name lead <> "".
Proof.
  eexists. split.
  - cbv beta iota zeta delta [demo_lead bind math_random ret trace drawn].
    reflexivity.
  - split; [reflexivity|].
    cbn [name]. apply truthy_iff. now apply truthy_append_r.
Qed.

Lemma demo_loop_run industry pattern locs : forall n i leads w,
  exists new,
    demo_loop env industry pattern locs n i leads w =
      (inr (leads ++ new), mkWorld (trace w) (4 * n + drawn w)) /\
    map url new = map (demo_url industry) (seq i n) /\
    Forall (fun l => name l <> "") new.
Proof.
  induction n as [|n IH]; intros i leads w.
  - exists []. rewrite app_nil_r. destruct w. repeat split; constructor.
  - destruct (demo_lead_run industry pattern locs i w)
      as (lead & Hrun & Hurl & Hname).
    destruct (IH (S i) (leads ++ [lead]) (mkWorld (trace w) (4 + drawn w)))
      as (new & Hloop & Hurls & Hnames).
    exists (lead :: new).
    cbn [demo_loop]. unfold bind at 1. rewrite Hrun, Hloop.
    cbn [trace drawn]. rewrite <- app_assoc. repeat split.
    + do 2 f_equal. lia.
    + simpl. congruence.
    + now constructor.
Qed.

Lemma generateDemoLeads_run industry location w :
  exists leads w',
    generateDemoLeads env industry location w = (inr leads, w') /\
    trace w' = trace w ++ [Invoke Demo] /\
    8 <= List.length leads <= 15 /\
    map url leads = map (demo_url industry) (seq 0 (List.length leads)) /\
    Forall (fun l => name l <> "") leads.
Proof.
  unfold generateDemoLeads, bind, emit, math_random. cbn [trace drawn].
  set (w1 := mkWorld (trace w ++ [Invoke Demo]) (S (drawn w))).
  set (r := random env (drawn w)).
  destruct (demo_loop_run industry
              (find_pattern (Js.toLowerCase industry) industryPatterns
                 default_pattern)
              (locations location) (Nat.min 15 (floor_times r 8 + 8)) 0 [] w1)
    as (new & Hloop & Hurls & Hnames).
  exists new, (mkWorld (trace w1) (4 * Nat.min 15 (floor_times r 8 + 8) + drawn w1)).
  assert (Hlen : List.length new = Nat.min 15 (floor_times r 8 + 8)).
  { rewrite <- (length_map url), Hurls, length_map. apply length_seq. }
  pose proof (floor_times_lt r 8 ltac:(lia)) as Hr.
  repeat split; try assumption; try (rewrite Hlen; lia).
  now rewrite Hlen.
Qed.

Lemma invocations_app t1 t2 :
  invocations (t1 ++ t2) = invocations t1 ++ invocations t2.
Proof.
  induction t1 as [|[src|u|label] t1 IH]; simpl; congruence.
Qed.

Lemma concat_if_nonempty (leads : list Lead) :
  (if 0 <? List.length leads then [] ++ leads else []) = leads.
Proof. now destruct leads. Qed.

Lemma bind_inr {A B} (m : M A) (k : A -> M B) w a w' :
  m w = (inr a, w') -> bind m k w = k a w'.
Proof. unfold bind. now intros ->. Qed.

(** Strategy 2, on the leads [d] gathered so far. *)
Lemma bing_stage_run industry location (d : list Lead) w1 :
  let b := if List.length d <? 10
           then bing_leads env industry location else [] in
  exists w2 rest,
    (if List.length d <? 10
     then bingLeads <- scrapeFromBing env industry location ;;
          ret (d ++ bingLeads)
     else ret d) w1 = (inr (d ++ b), w2) /\
    trace w2 = trace w1 ++ rest /\
    invocations rest = if List.length d <? 10 then [Bing] else [].
Proof.
  intros b. subst b. destruct (List.length d <? 10).
  - eexists. eexists. split; [|split].
    + erewrite bind_inr by apply scrapeFromBing_run. reflexivity.
    + reflexivity.
    + now destruct (failed (net env (bing_url industry location))).
  - exists w1, []. rewrite !app_nil_r. auto.
Qed.

(** Strategy 3, on the leads gathered so far. *)
Lemma demo_stage_run industry location (leads : list Lead) w2 :
  exists s w',
    (if List.length leads <? 5
     then demoLeads <- generateDemoLeads env industry location ;;
          ret (leads ++ demoLeads)
     else ret leads) w2 = (inr (leads ++ s), w') /\
    trace w' =
      trace w2 ++ (if List.length leads <? 5 then [Invoke Demo] else []) /\
    (if List.length leads <? 5
     then generateDemoLeads env industry location w2 = (inr s, w')
     else s = []).
Proof.
  destruct (List.length leads <? 5).
  - destruct (generateDemoLeads_run industry location w2)
      as (s & w3 & Hgen & Ht3 & _).
    exists s, w3. split; [|split]; try assumption.
    erewrite bind_inr by exact Hgen. reflexivity.
  - exists [], w2. rewrite !app_nil_r. auto.
Qed.

(** The strategies, run: the working sequence is the leads of
    DuckDuckGo, then those of Bing when it is called, then the synthetic
    ones when the generator is called. *)
Lemma gatherLeads_run industry location w :
  let d := duckduckgo_leads env industry location in
  let b := if List.length d <? 10
           then bing_leads env industry location else [] in
  exists s w' rest,
    gatherLeads env industry location w = (inr (d ++ b ++ s), w') /\
    trace w' =
      trace w ++
      Invoke DuckDuckGo :: Fetch (duckduckgo_url industry location) :: rest /\
    invocations rest =
      (if List.length d <? 10 then [Bing] else []) ++
      (if List.length (d ++ b) <? 5 then [Demo] else []) /\
    (if List.length (d ++ b) <? 5
     then exists w2,
            generateDemoLeads env industry location w2 = (inr s, w') /\
            trace w' = trace w2 ++ [Invoke Demo]
     else s = []).
Proof.
  intros d b. cbv beta zeta delta [gatherLeads].
  erewrite bind_inr by apply scrapeFromDuckDuckGo_run.
  rewrite concat_if_nonempty. fold d.
  set (ce := if failed (net env (duckduckgo_url industry location))
             then [ConsoleError "DuckDuckGo scraping error:"] else []).
  assert (Hce : invocations ce = []) by (subst ce; now destruct (failed _)).
  set (w1 := mkWorld _ (drawn w)).
  destruct (bing_stage_run industry location d w1)
    as (w2 & rest & Hb & Ht2 & Hinv).
  erewrite bind_inr by exact Hb. fold b.
  destruct (demo_stage_run industry location (d ++ b) w2)
    as (s & w3 & Hs & Ht3 & Hgen).
  exists s, w3, (ce ++ rest ++
                 if List.length (d ++ b) <? 5 then [Invoke Demo] else []).
  rewrite Hs, app_assoc. split; [reflexivity|]. split; [|split].
  - rewrite Ht3, Ht2. subst w1. cbn [trace].
    rewrite <- !app_assoc. reflexivity.
  - rewrite !invocations_app, Hce, Hinv.
    now destruct (List.length (d ++ b) <? 5).
  - destruct (List.length (d ++ b) <? 5); [|assumption].
    exists w2. auto.
Qed.

Lemma generated_named industry location w leads w' :
  generateDemoLeads env industry location w = (inr leads, w') ->
  Forall named_and_linked leads.
Proof.
  intros Hgen.
  destruct (generateDemoLeads_run industry location w)
    as (s & w0 & Hrun & _ & _ & Hurls & Hnames).
  rewrite Hgen in Hrun. injection Hrun as <- <-.
  apply Forall_forall. intros l Hin. split.
  - rewrite Forall_forall in Hnames. auto.
  - apply (in_map url) in Hin. rewrite Hurls in Hin.
    apply in_map_iff in Hin. destruct Hin as (i & <- & _).
    discriminate.
Qed.

Lemma gathered_named industry location w leads w' :
  gatherLeads env industry location w = (inr leads, w') ->
  Forall named_and_linked leads.
Proof.
  intros Hg.
  destruct (gatherLeads_run industry location w)
    as (s & w0 & rest & Hrun & _ & _ & Hs).
  rewrite Hg in Hrun. injection Hrun as -> ->.
  rewrite !Forall_app. split; [apply duckduckgo_leads_named|]. split.
  - destruct (_ <? 10); [apply bing_leads_named|constructor].
  - destruct (_ <? 5); [|subst s; constructor].
    destruct Hs as (w2 & Hgen & _). eapply generated_named; eauto.
Qed.

(** The handler answers a request that names an industry with the
    response built from the working sequence. *)
Lemma POST_run ind loc w leads w' :
  Js.truthy ind = true ->
  gatherLeads env ind (or_empty loc) w = (inr leads, w') ->
  POST env (Json (mkBody (Some ind) loc)) w = (respond leads, w').
Proof.
  intros Ht Hg. destruct ind as [|c ind]; [discriminate|].
  unfold POST, POST_try. cbn [industry location].
  erewrite bind_inr by exact Hg. reflexivity.
Qed.

(** A request without an industry is refused before anything else
    happens: the world is left as it was. *)
Lemma POST_missing_industry body w :
  industry body = None \/ industry body = Some "" ->
  POST env (Json body) w = (Failure 400 "Industry is required", w).
Proof.
  unfold POST, POST_try. now intros [-> | ->].
Qed.

(** Only the path through the strategies answers with success. *)
Lemma POST_success request w leads src w' :
  POST env request w = (Success leads src, w') ->
  exists ind loc working,
    request = Json (mkBody (Some ind) loc) /\
    Js.truthy ind = true /\
    gatherLeads env ind (or_empty loc) w = (inr working, w') /\
    leads = firstn 25 (uniqueLeads working) /\
    src = if 0 <? List.length (uniqueLeads working)
          then "web_scraping" else "demo".
Proof.
  destruct request as [e|[[ind|] loc]].
  - unfold POST, POST_try, throw. discriminate.
  - destruct ind as [|c ind].
    + rewrite POST_missing_industry by (right; reflexivity). discriminate.
    + destruct (gatherLeads_run (String c ind) (or_empty loc) w)
        as (s & w0 & rest & Hrun & _).
      erewrite POST_run by (reflexivity || exact Hrun).
      intros H. apply pair_equal_spec in H. destruct H as [Hr <-].
      exists (String c ind), loc. eexists.
      split; [reflexivity|]. split; [reflexivity|]. split; [exact Hrun|].
      split.
      * change (firstn 25 (uniqueLeads ?x))
          with (match respond x with Success l _ => l | _ => [] end).
        now rewrite Hr.
      * change (if 0 <? List.length (uniqueLeads ?x) then ?a else ?b)
          with (match respond x with Success _ t => t | _ => "" end).
        now rewrite Hr.
  - rewrite POST_missing_industry by (left; reflexivity). discriminate.
Qed.

End WithWorld.


Lemma demo_url_nonempty industry i : demo_url industry i <> "".
Proof. discriminate. Qed.

Lemma demo_url_restaurant i : restaurant_url (demo_url "restaurant" i).
Proof. exists i. reflexivity. Qed.

Lemma demo_url_inj industry i j :
  i < 15 -> j < 15 -> demo_url industry i = demo_url industry j -> i = j.
Proof.
  unfold demo_url. intros Hi Hj H.
  do 2 apply append_inv_head in H.
  do 15 (destruct i as [|i]; [do 15 (destruct j as [|j];
           [first [reflexivity | discriminate H]|]); lia|]).
  lia.
Qed.

Lemma demo_urls_NoDup industry n :
  n <= 15 -> NoDup (map (demo_url industry) (seq 0 n)).
Proof.
  intros Hn. apply NoDup_map_NoDup_ForallPairs; [|apply seq_NoDup].
  intros i j Hi Hj. apply in_seq in Hi, Hj.
  apply demo_url_inj; lia.
Qed.


End RouteFacts.

(* ================================================================== *)
(** * The properties of the pipeline *)

Lemma In_firstn {A} (n : nat) (l : list A) (x : A) :
  In x (firstn n l) -> In x l.
Proof.
  intros H. rewrite <- (firstn_skipn n l). apply in_or_app. now left.
Qed.

Lemma first_occurrences_NoDup_id (l : list string) :
  NoDup l -> first_occurrences l = l.
Proof.
  induction 1 as [|x l Hnotin _ IH]; simpl; [reflexivity|].
  rewrite IH. f_equal.
  clear IH. induction l as [|y l IHl]; simpl; [reflexivity|].
  destruct (String.eqb x y) eqn:E.
  - apply String.eqb_eq in E. subst y. exfalso. apply Hnotin. now left.
  - simpl. f_equal. apply IHl. intros Hin. apply Hnotin. now right.
Qed.

Lemma uniqueLeads_length_NoDup (leads : list Lead) :
  NoDup (map url leads) ->
  List.length (uniqueLeads leads) = List.length leads.
Proof.
  intros Hnd.
  rewrite <- (length_map url (uniqueLeads leads)), DedupFacts.urls_unique.
  rewrite first_occurrences_NoDup_id by assumption.
  apply length_map.
Qed.

Lemma uniqueLeads_nonempty (leads : list Lead) :
  leads <> []%list -> uniqueLeads leads <> []%list.
Proof.
  intros Hne Hu.
  apply (f_equal (map url)) in Hu. rewrite DedupFacts.urls_unique in Hu.
  destruct leads; [contradiction|discriminate].
Qed.

Lemma gathered_length {random_source : MathRandom} (env : Env)
    ind loc w working w' :
  gatherLeads env ind loc w = (inr working, w') ->
  5 <= List.length working.
Proof.
  intros Hg.
  destruct (RouteFacts.gatherLeads_run env ind loc w)
    as (s & w0 & rest & Hrun & _ & _ & Hs).
  rewrite Hg in Hrun. injection Hrun as -> ->.
  rewrite app_assoc, length_app.
  destruct (_ <? 5) eqn:E.
  - destruct Hs as (w2 & Hgen & _).
    destruct (RouteFacts.generateDemoLeads_run env ind loc w2)
      as (s0 & w3 & Hrun & _ & Hlen & _).
    rewrite Hgen in Hrun. injection Hrun as <- <-. lia.
  - apply Nat.ltb_ge in E. lia.
Qed.

Lemma respond_nonempty (working : list Lead) :
  working <> []%list ->
  exists leads, respond working = Success leads "web_scraping" /\
                leads <> []%list.
Proof.
  intros Hne. apply uniqueLeads_nonempty in Hne. unfold respond.
  destruct (uniqueLeads working) as [|l u]; [contradiction|].
  eexists. split; [reflexivity|]. discriminate.
Qed.

(** C1. A successful run returns at most 25 leads, each with a
    non-empty name and a non-empty url. *)
Theorem leads_bounded_and_named {random_source : MathRandom} (env : Env)
    (request : Request) (w w' : World) (leads : list Lead) (src : string) :
  POST env request w = (Success leads src, w') ->
  List.length leads <= 25 /\ Forall named_and_linked leads.
Proof.
  intros H.
  destruct (RouteFacts.POST_success env _ _ _ _ _ H)
    as (ind & loc & working & _ & _ & Hg & -> & _).
  split; [apply firstn_le_length|].
  apply Forall_forall. intros l Hin.
  apply In_firstn, DedupFacts.In_unique in Hin.
  pose proof (RouteFacts.gathered_named env _ _ _ _ _ Hg) as Hnamed.
  rewrite Forall_forall in Hnamed. auto.
Qed.

(** C3. For a request that names an industry the strategies are staged:
    DuckDuckGo is entered first; Bing is entered, once, exactly when
    DuckDuckGo returned fewer than 10 leads; the generator is entered,
    once, exactly when fewer than 5 leads are held after that; and the
    working sequence is the DuckDuckGo leads, then the Bing leads, then
    the synthetic leads. *)
Theorem staged_source_policy {random_source : MathRandom} (env : Env)
    (ind : string) (loc : option string) (w : World) :
  Js.truthy ind = true ->
  let d := duckduckgo_leads env ind (or_empty loc) in
  let b := if List.length d <? 10
           then bing_leads env ind (or_empty loc) else []%list in
  exists (s : list Lead) (w' : World) (events : list Event),
    POST env (Json (mkBody (Some ind) loc)) w =
      (respond (d ++ b ++ s)%list, w') /\
    trace w' = (trace w ++ events)%list /\
    invocations events =
      ([DuckDuckGo] ++
       (if List.length d <? 10 then [Bing] else []) ++
       (if List.length (d ++ b) <? 5 then [Demo] else []))%list /\
    fst (scrapeFromDuckDuckGo env ind (or_empty loc) w) = inr d /\
    (List.length d < 10 ->
     forall w1, fst (scrapeFromBing env ind (or_empty loc) w1) = inr b) /\
    (if List.length (d ++ b) <? 5
     then exists w2,
            generateDemoLeads env ind (or_empty loc) w2 = (inr s, w')
     else s = []%list).
Proof.
  intros Hind d b.
  destruct (RouteFacts.gatherLeads_run env ind (or_empty loc) w)
    as (s & w' & rest & Hrun & Htrace & Hinv & Hs).
  fold d in Hrun, Hinv, Hs. fold b in Hrun, Hinv, Hs.
  exists s, w'. eexists. split; [|split; [exact Htrace|]].
  - now apply RouteFacts.POST_run.
  - split; [simpl; now rewrite Hinv|]. split; [|split].
    + now rewrite RouteFacts.scrapeFromDuckDuckGo_run.
    + intros Hlt w1. rewrite RouteFacts.scrapeFromBing_run. subst b.
      apply Nat.ltb_lt in Hlt. now rewrite Hlt.
    + destruct (List.length (d ++ b) <? 5); [|assumption].
      destruct Hs as (w2 & Hgen & _). now exists w2.
Qed.

(** C7. No adapter raises: whatever the reply to its request, it returns
    a sequence of leads, and the empty one when the request failed, the
    status was not a success, or the body could not be read or parsed. *)
Theorem adapters_never_raise {random_source : MathRandom} (env : Env)
    (ind loc : string) (w : World) :
  (exists leads w',
     scrapeFromDuckDuckGo env ind loc w = (inr leads, w') /\
     (failed (net env (duckduckgo_url ind loc)) = true -> leads = []%list))
  /\
  (exists leads w',
     scrapeFromBing env ind loc w = (inr leads, w') /\
     (failed (net env (bing_url ind loc)) = true -> leads = []%list)).
Proof.
  split; eexists; eexists.
  - split; [apply RouteFacts.scrapeFromDuckDuckGo_run|].
    unfold duckduckgo_leads.
    now destruct (net env _) as [e|[|] [e|e|results]].
  - split; [apply RouteFacts.scrapeFromBing_run|].
    unfold bing_leads.
    now destruct (net env _) as [e|[|] [e|e|results]].
Qed.

(** C6. A request that names an industry is answered successfully and
    tagged [web_scraping]; no successful response is tagged [demo].  The
    generator yields at least 8 leads with pairwise distinct, non-empty
    urls, so the deduplicated working sequence is never empty. *)
Theorem provenance_is_web_scraping {random_source : MathRandom} (env : Env) :
  (forall ind loc w,
     Js.truthy ind = true ->
     exists leads w',
       POST env (Json (mkBody (Some ind) loc)) w =
         (Success leads "web_scraping", w') /\ leads <> []%list) /\
  (forall request w leads src w',
     POST env request w = (Success leads src, w') -> src = "web_scraping") /\
  (forall ind loc w,
     exists s w',
       generateDemoLeads env ind loc w = (inr s, w') /\
       8 <= List.length s /\ NoDup (map url s) /\
       Forall (fun l => url l <> "") s) /\
  (forall ind loc w working w',
     gatherLeads env ind loc w = (inr working, w') ->
     uniqueLeads working <> []%list).
Proof.
  assert (Hne : forall ind loc w working w',
             gatherLeads env ind loc w = (inr working, w') ->
             working <> []%list).
  { intros ind loc w working w' Hg Hnil.
    apply gathered_length in Hg. subst working. simpl in Hg. lia. }
  repeat split.
  - intros ind loc w Hind.
    destruct (RouteFacts.gatherLeads_run env ind (or_empty loc) w)
      as (s & w' & rest & Hrun & _).
    destruct (respond_nonempty _ (Hne _ _ _ _ _ Hrun)) as (leads & Hr & Hl).
    exists leads, w'. split; [|assumption].
    rewrite <- Hr. now apply RouteFacts.POST_run.
  - intros request w leads src w' H.
    destruct (RouteFacts.POST_success env _ _ _ _ _ H)
      as (ind & loc & working & _ & _ & Hg & _ & ->).
    apply Hne, uniqueLeads_nonempty in Hg.
    now destruct (uniqueLeads working).
  - intros ind loc w.
    destruct (RouteFacts.generateDemoLeads_run env ind loc w)
      as (s & w' & Hrun & _ & Hlen & Hurls & _).
    exists s, w'. repeat split; [assumption|lia| |].
    + rewrite Hurls. apply RouteFacts.demo_urls_NoDup. lia.
    + apply Forall_forall. intros l Hin.
      apply (in_map url) in Hin. rewrite Hurls in Hin.
      apply in_map_iff in Hin. destruct Hin as (i & <- & _).
      apply RouteFacts.demo_url_nonempty.
  - intros ind loc w working w' Hg.
    eapply uniqueLeads_nonempty, Hne, Hg.
Qed.

(** C5 (what the route does). For industry [restaurant] and an empty
    location, when both live sources yield no lead, the response holds
    between 8 and 15 leads whose urls have the shape
    [https://example-restaurant-{n}.com]; its source tag is
    [web_scraping], not [demo]. *)
Theorem restaurant_fallback_tag {random_source : MathRandom} (env : Env)
    (w : World) :
  duckduckgo_leads env "restaurant" "" = []%list ->
  bing_leads env "restaurant" "" = []%list ->
  exists leads w',
    POST env (Json (mkBody (Some "restaurant") (Some ""))) w =
      (Success leads "web_scraping", w') /\
    8 <= List.length leads <= 15 /\
    Forall (fun l => restaurant_url (url l)) leads.
Proof.
  intros Hd Hb.
  destruct (RouteFacts.gatherLeads_run env "restaurant" "" w)
    as (s & w' & rest & Hrun & _ & _ & Hs).
  rewrite Hd in Hrun, Hs. cbn [List.length Nat.ltb Nat.leb] in Hrun, Hs.
  rewrite Hb in Hrun, Hs. cbn [List.length Nat.ltb Nat.leb app] in Hrun, Hs.
  destruct Hs as (w2 & Hgen & _).
  destruct (RouteFacts.generateDemoLeads_run env "restaurant" "" w2)
    as (s0 & w3 & Hrun0 & _ & Hlen & Hurls & _).
  rewrite Hgen in Hrun0. injection Hrun0 as <- <-.
  assert (Hnd : NoDup (map url s)).
  { rewrite Hurls. apply RouteFacts.demo_urls_NoDup. lia. }
  assert (Hlu : List.length (uniqueLeads s) = List.length s)
    by now apply uniqueLeads_length_NoDup.
  exists (uniqueLeads s), w'. split; [|split].
  - rewrite (RouteFacts.POST_run env "restaurant" (Some "") w s w')
      by (reflexivity || exact Hrun).
    unfold respond. rewrite firstn_all2 by lia.
    assert (E : (0 <? List.length (uniqueLeads s)) = true)
      by (apply Nat.ltb_lt; lia).
    now rewrite E.
  - lia.
  - apply Forall_forall. intros l Hin.
    apply DedupFacts.In_unique, (in_map url) in Hin.
    rewrite Hurls in Hin. apply in_map_iff in Hin.
    destruct Hin as (i & <- & _). apply RouteFacts.demo_url_restaurant.
Qed.

(** The part of the input check the route does perform: a request whose
    industry is missing or the empty string is answered with status 400
    and ["Industry is required"], and nothing is fetched or logged. *)
Theorem empty_industry_rejected {random_source : MathRandom} (env : Env)
    (body : RequestBody) (w : World) :
  industry body = None \/ industry body = Some "" ->
  POST env (Json body) w = (Failure 400 "Industry is required", w).
Proof. apply RouteFacts.POST_missing_industry. Qed.

(** C2 (what the route does). An industry that consists of white space
    passes the input check: the request for the industry [" "] is
    answered successfully after DuckDuckGo has been fetched. *)
Theorem blank_industry_is_scraped {random_source : MathRandom} (env : Env)
    (w : World) :
  exists leads w' rest,
    POST env (Json (mkBody (Some " ") None)) w =
      (Success leads "web_scraping", w') /\
    trace w' =
      (trace w ++
       Invoke DuckDuckGo :: Fetch "https://html.duckduckgo.com/html/?q=%20"
       :: rest)%list.
Proof.
  destruct (RouteFacts.gatherLeads_run env " " "" w)
    as (s & w' & rest & Hrun & Htrace & _).
  assert (Hne : (duckduckgo_leads env " " "" ++
                 (if List.length (duckduckgo_leads env " " "") <? 10
                  then bing_leads env " " "" else []) ++ s)%list <> []%list).
  { intros Hnil. apply gathered_length in Hrun. rewrite Hnil in Hrun.
    simpl in Hrun. lia. }
  destruct (respond_nonempty _ Hne) as (leads & Hr & _).
  exists leads, w', rest. split; [|exact Htrace].
  rewrite <- Hr. now apply RouteFacts.POST_run.
Qed.

(** The DuckDuckGo adapter prefixes [https://] to a link that does not
    start with [http], and leaves any other link as it is. *)
Lemma duckduckgo_result_url (element : ResultNode) (lead : Lead) :
  duckduckgo_result element = Some lead ->
  url lead = (if Js.startsWith (href_or_empty element) "http"
              then href_or_empty element
              else "https://" ++ href_or_empty element).
Proof.
  unfold duckduckgo_result.
  destruct (Js.truthy _ && Js.truthy _); [|discriminate].
  intros H. injection H as <-. reflexivity.
Qed.

(** The Bing adapter stores the link as it is. *)
Lemma bing_result_url (element : ResultNode) (lead : Lead) :
  bing_result element = Some lead -> url lead = href_or_empty element.
Proof.
  unfold bing_result.
  destruct (Js.truthy _ && Js.truthy _); [|discriminate].
  intros H. injection H as <-. reflexivity.
Qed.

(** C9 (what the route does). The Bing adapter emits a relative link
    unchanged, and the DuckDuckGo adapter leaves a bare host name that
    begins with [http] without a scheme: neither stored url is an
    absolute address. *)
Theorem adapters_emit_relative_links :
  fst (scrapeFromBing relative_link_env "pizza" "" fresh) =
    inr [mkLead "Joe's Pizza" "/local/details?id=1"
                "No description available" None]%list /\
  absolute_address "/local/details?id=1" = false /\
  fst (scrapeFromDuckDuckGo relative_link_env "pizza" "" fresh) =
    inr [mkLead "HTTP tools" "httpbin.org/get"
                "No description available" None]%list /\
  absolute_address "httpbin.org/get" = false.
Proof. repeat split. Qed.

(** C8. Contact inference returns the first match of the email pattern
    when the text has one; otherwise the first match of the phone
    pattern when the text has one; otherwise nothing.  The three
    snippets of the specification give the email address, the phone
    number, and no contact. *)
Theorem contact_inference :
  (forall text,
     ((exists i m, Occurs emailPattern text i m) ->
      exists m, inferContact text = Some m /\
                FirstMatch emailPattern text m) /\
     (NoMatch emailPattern text ->
      (exists i m, Occurs phonePattern text i m) ->
      exists m, inferContact text = Some m /\
                FirstMatch phonePattern text m) /\
     (NoMatch emailPattern text -> NoMatch phonePattern text ->
      inferContact text = None)) /\
  inferContact "Contact us at sales@example.com today"
    = Some "sales@example.com" /\
  inferContact "Call (555) 123-4567 now" = Some "(555) 123-4567" /\
  inferContact "Open daily from 9 to 5" = None.
Proof.
  split; [|repeat split].
  intros text. unfold inferContact.
  destruct (ContactFacts.match0_decide emailPattern text)
    as [(m & Em & Hm)|[Em Hm]];
  destruct (ContactFacts.match0_decide phonePattern text)
    as [(p & Ep & Hp)|[Ep Hp]];
  rewrite Em, Ep.
  1, 2: assert (Ht : Js.truthy m = true)
    by (eapply ContactFacts.FirstMatch_truthy; [|exact Hm]; simpl; lia).
  1, 2: destruct m as [|c m]; [discriminate|]; cbn [Js.or_undef].
  1, 2: destruct Hm as (i & Hocc & Hleft).
  1, 2: repeat split;
    [ intros _; eexists; split; [reflexivity|]; exists i; auto
    | intros Hno; exfalso; eapply Hno; exact Hocc
    | intros Hno; exfalso; eapply Hno; exact Hocc ].
  - cbn [Js.or_undef]. repeat split.
    + intros (i & m & Hocc). exfalso. eapply Hm. exact Hocc.
    + intros _ _. exists p. split; [reflexivity|assumption].
    + intros _ Hno. exfalso. destruct Hp as (i & Hocc & _).
      eapply Hno. exact Hocc.
  - cbn [Js.or_undef]. repeat split.
    + intros (i & m & Hocc). exfalso. eapply Hm. exact Hocc.
    + intros _ (i & m & Hocc). exfalso. eapply Hp. exact Hocc.
Qed.

(* ================================================================== *)
(** * The properties at work on concrete runs *)

Example trim_strips_both_ends : Js.trim "  a b  " = "a b".
Proof. reflexivity. Qed.

Example decimal_renders :
  Js.decimal 0 = "0" /\ Js.decimal 14 = "14" /\ Js.decimal 105 = "105".
Proof. repeat split. Qed.

Example encodeURIComponent_query :
  encodeURIComponent (query "pizza" "New York")
  = "pizza%20in%20New%20York".
Proof. reflexivity. Qed.

Example dentist_pattern :
  find_pattern (Js.toLowerCase "Family Dentist") industryPatterns
               default_pattern
  = ["Dental Care"; "Dentistry"; "Dental Clinic"; "Dental Associates"]%list.
Proof. reflexivity. Qed.

Example uniqueLeads_sample :
  uniqueLeads sample_leads = [late_lead; other_lead]%list.
Proof. reflexivity. Qed.

Lemma leads_bounded_and_named_witness :
  exists leads src w',
    POST sample_env (Json (mkBody (Some "pizza") None)) fresh =
      (Success leads src, w') /\
    List.length leads <= 25 /\ Forall named_and_linked leads.
Proof.
  do 3 eexists. split; [vm_compute; reflexivity|].
  eapply (leads_bounded_and_named sample_env
            (Json (mkBody (Some "pizza") None)) fresh).
  vm_compute. reflexivity.
Defined.

Lemma staged_source_policy_witness :
  Js.truthy "pizza" = true /\
  exists s w' events,
    POST sample_env (Json (mkBody (Some "pizza") None)) fresh =
      (respond (duckduckgo_leads sample_env "pizza" "" ++
                bing_leads sample_env "pizza" "" ++ s)%list, w') /\
    trace w' = events /\
    invocations events = [DuckDuckGo; Bing; Demo]%list.
Proof.
  split; [reflexivity|].
  destruct (staged_source_policy sample_env "pizza" None fresh eq_refl)
    as (s & w' & events & HP & Ht & Hi & _).
  exists s, w', events.
  split; [exact HP|]. split; [exact Ht|exact Hi].
Defined.

Lemma dedup_last_write_wins_witness :
  2 <= List.length (filter (has_url "https://joes.example") sample_leads) /\
  exists before latest after,
    sample_leads = (before ++ latest :: after)%list /\
    url latest = "https://joes.example" /\
    Forall (fun x => url x <> "https://joes.example") after /\
    filter (has_url "https://joes.example") (uniqueLeads sample_leads)
      = [latest]%list.
Proof.
  split; [simpl; lia|].
  apply (dedup_last_write_wins sample_leads "https://joes.example").
  simpl; lia.
Defined.

Lemma dedup_first_occurrence_order_witness :
  map url (uniqueLeads sample_leads)
    = ["https://joes.example"; "https://luigis.example"]%list /\
  In late_lead (uniqueLeads sample_leads) /\
  last_with (url late_lead) sample_leads = Some late_lead.
Proof.
  destruct (dedup_first_occurrence_order sample_leads) as [Horder Hlast].
  split; [exact Horder|].
  assert (Hin : In late_lead (uniqueLeads sample_leads)) by (now left).
  split; [exact Hin|exact (Hlast _ Hin)].
Defined.

Lemma restaurant_fallback_tag_witness :
  duckduckgo_leads offline_env "restaurant" "" = []%list /\
  bing_leads offline_env "restaurant" "" = []%list /\
  exists leads w',
    POST offline_env (Json (mkBody (Some "restaurant") (Some ""))) fresh =
      (Success leads "web_scraping", w') /\
    8 <= List.length leads <= 15 /\
    Forall (fun l => restaurant_url (url l)) leads.
Proof.
  split; [reflexivity|]. split; [reflexivity|].
  apply (restaurant_fallback_tag offline_env fresh); reflexivity.
Defined.

Lemma provenance_is_web_scraping_witness :
  Js.truthy "pizza" = true /\
  exists leads w',
    POST sample_env (Json (mkBody (Some "pizza") None)) fresh =
      (Success leads "web_scraping", w') /\ leads <> []%list.
Proof.
  split; [reflexivity|].
  apply (proj1 (provenance_is_web_scraping sample_env)). reflexivity.
Defined.

Lemma adapters_never_raise_witness :
  failed (net offline_env (duckduckgo_url "pizza" "")) = true /\
  exists w',
    scrapeFromDuckDuckGo offline_env "pizza" "" fresh = (inr []%list, w').
Proof.
  split; [reflexivity|].
  destruct (proj1 (adapters_never_raise offline_env "pizza" "" fresh))
    as (leads & w' & Hrun & Hfail).
  exists w'. rewrite (Hfail eq_refl) in Hrun. exact Hrun.
Defined.

Lemma contact_inference_witness :
  NoMatch emailPattern "Call (555) 123-4567 now" /\
  (exists i m, Occurs phonePattern "Call (555) 123-4567 now" i m) /\
  exists m, inferContact "Call (555) 123-4567 now" = Some m /\
            FirstMatch phonePattern "Call (555) 123-4567 now" m.
Proof.
  assert (Hno : NoMatch emailPattern "Call (555) 123-4567 now")
    by (apply ContactFacts.match0_none; reflexivity).
  assert (Hocc : exists i m, Occurs phonePattern "Call (555) 123-4567 now" i m).
  { destruct (ContactFacts.match0_some phonePattern
                "Call (555) 123-4567 now" "(555) 123-4567" eq_refl)
      as (i & Hi & _).
    eauto. }
  split; [exact Hno|]. split; [exact Hocc|].
  exact (proj1 (proj2 (proj1 contact_inference _)) Hno Hocc).
Defined.

(* ================================================================== *)
(** * Further properties of the route *)

Module MoreFacts.

Import StringFacts.
Local Open Scope list_scope.

Lemma each_filter_map limit body : forall elements i leads,
  each limit body i elements leads =
  leads ++ filter_map body (firstn (limit - i) elements).
Proof.
  induction elements as [|element rest IH]; intros i leads; simpl.
  - now rewrite firstn_nil, app_nil_r.
  - destruct (limit <=? i) eqn:E.
    + apply Nat.leb_le in E. replace (limit - i) with 0 by lia.
      simpl. now rewrite app_nil_r.
    + apply Nat.leb_gt in E.
      replace (limit - i) with (S (limit - S i)) by lia.
      rewrite IH. simpl.
      destruct (body element); [now rewrite <- app_assoc|reflexivity].
Qed.

Lemma filter_map_length {A B} (f : A -> option B) (l : list A) :
  List.length (filter_map f l) <= List.length l.
Proof.
  induction l as [|x l IH]; simpl; [lia|].
  destruct (f x); simpl; lia.
Qed.

Lemma filter_map_Forall {A B} (f : A -> option B) (P : B -> Prop) l :
  (forall x y, f x = Some y -> P y) -> Forall P (filter_map f l).
Proof.
  intros Hf. induction l as [|x l IH]; simpl; [constructor|].
  destruct (f x) eqn:E; [constructor; eauto|assumption].
Qed.

Section WithWorld.

Context {random_source : MathRandom} (env : Env).

Lemma duckduckgo_leads_eq ind loc :
  duckduckgo_leads env ind loc =
  match net env (duckduckgo_url ind loc) with
  | Response true (Page results) =>
      filter_map duckduckgo_result (firstn 20 results)
  | _ => []
  end.
Proof.
  unfold duckduckgo_leads.
  destruct (net env _) as [e|[|] [e|e|results]]; try reflexivity.
  apply each_filter_map.
Qed.

Lemma bing_leads_eq ind loc :
  bing_leads env ind loc =
  match net env (bing_url ind loc) with
  | Response true (Page results) =>
      filter_map bing_result (firstn 15 results)
  | _ => []
  end.
Proof.
  unfold bing_leads.
  destruct (net env _) as [e|[|] [e|e|results]]; try reflexivity.
  apply each_filter_map.
Qed.

Lemma duckduckgo_leads_Forall (P : Lead -> Prop) ind loc :
  (forall element lead, duckduckgo_result element = Some lead -> P lead) ->
  Forall P (duckduckgo_leads env ind loc).
Proof.
  intros HP. rewrite duckduckgo_leads_eq.
  destruct (net env _) as [e|[|] [e|e|results]]; try constructor.
  now apply filter_map_Forall.
Qed.

Lemma bing_leads_Forall (P : Lead -> Prop) ind loc :
  (forall element lead, bing_result element = Some lead -> P lead) ->
  Forall P (bing_leads env ind loc).
Proof.
  intros HP. rewrite bing_leads_eq.
  destruct (net env _) as [e|[|] [e|e|results]]; try constructor.
  now apply filter_map_Forall.
Qed.

Lemma duckduckgo_leads_length ind loc :
  List.length (duckduckgo_leads env ind loc) <= 20.
Proof.
  rewrite duckduckgo_leads_eq.
  destruct (net env _) as [e|[|] [e|e|results]]; try (simpl; lia).
  etransitivity; [apply filter_map_length|apply firstn_le_length].
Qed.

Lemma bing_leads_length ind loc :
  List.length (bing_leads env ind loc) <= 15.
Proof.
  rewrite bing_leads_eq.
  destruct (net env _) as [e|[|] [e|e|results]]; try (simpl; lia).
  etransitivity; [apply filter_map_length|apply firstn_le_length].
Qed.

(** The generator builds its leads with [demo_record], one per index. *)
Lemma demo_lead_shape ind pattern locs i w :
  demo_lead env ind pattern locs i w =
  (inr (demo_record ind pattern locs i
          (random env (drawn w)) (random env (1 + drawn w))
          (random env (2 + drawn w)) (random env (3 + drawn w))),
   mkWorld (trace w) (4 + drawn w)).
Proof. reflexivity. Qed.

Lemma demo_loop_shape ind pattern locs : forall n i leads w,
  exists new,
    demo_loop env ind pattern locs n i leads w =
      (inr (leads ++ new), mkWorld (trace w) (4 * n + drawn w)) /\
    List.length new = n /\
    forall k l, nth_error new k = Some l ->
      exists r1 r2 r3 r4,
        l = demo_record ind pattern locs (i + k) r1 r2 r3 r4.
Proof.
  induction n as [|n IH]; intros i leads w.
  - exists []. rewrite app_nil_r. destruct w.
    repeat split. intros [|k] l; discriminate.
  - destruct (IH (S i)
                (leads ++ [demo_record ind pattern locs i
                   (random env (drawn w)) (random env (1 + drawn w))
                   (random env (2 + drawn w)) (random env (3 + drawn w))])
                (mkWorld (trace w) (4 + drawn w)))
      as (new & Hloop & Hlen & Hshape).
    exists (demo_record ind pattern locs i
              (random env (drawn w)) (random env (1 + drawn w))
              (random env (2 + drawn w)) (random env (3 + drawn w)) :: new).
    cbn [demo_loop]. unfold bind at 1. rewrite demo_lead_shape, Hloop.
    cbn [trace drawn]. rewrite <- app_assoc. repeat split.
    + replace (4 * S n + drawn w) with (4 * n + (4 + drawn w)) by lia.
      reflexivity.
    + simpl. now rewrite Hlen.
    + intros [|k] l Hk; simpl in Hk.
      * injection Hk as <-. rewrite Nat.add_0_r. eauto.
      * destruct (Hshape k l Hk) as (r1 & r2 & r3 & r4 & ->).
        replace (i + S k) with (S i + k) by lia. eauto.
Qed.

Lemma generated_shape ind loc w s w' :
  generateDemoLeads env ind loc w = (inr s, w') ->
  8 <= List.length s <= 15 /\
  forall k l, nth_error s k = Some l ->
    exists r1 r2 r3 r4,
      l = demo_record ind
            (find_pattern (Js.toLowerCase ind) industryPatterns
               default_pattern)
            (locations loc) k r1 r2 r3 r4.
Proof.
  unfold generateDemoLeads, bind, emit, math_random. cbn [trace drawn].
  set (w1 := mkWorld (trace w ++ [Invoke Demo]) (S (drawn w))).
  set (r := random env (drawn w)).
  destruct (demo_loop_shape ind
              (find_pattern (Js.toLowerCase ind) industryPatterns
                 default_pattern)
              (locations loc) (Nat.min 15 (floor_times r 8 + 8)) 0 [] w1)
    as (new & Hloop & Hlen & Hshape).
  intros H. rewrite Hloop in H. injection H as <- _.
  pose proof (floor_times_lt r 8 ltac:(lia)) as Hr.
  split; [simpl; lia|]. exact Hshape.
Qed.

Lemma generated_Forall (P : Lead -> Prop) ind loc w s w' :
  (forall i r1 r2 r3 r4,
     P (demo_record ind
          (find_pattern (Js.toLowerCase ind) industryPatterns
             default_pattern)
          (locations loc) i r1 r2 r3 r4)) ->
  generateDemoLeads env ind loc w = (inr s, w') ->
  Forall P s.
Proof.
  intros HP Hgen. apply generated_shape in Hgen. destruct Hgen as [_ Hs].
  apply Forall_forall. intros l Hin.
  apply In_nth_error in Hin. destruct Hin as (k & Hk).
  destruct (Hs k l Hk) as (r1 & r2 & r3 & r4 & ->). apply HP.
Qed.

(** A property of every adapter lead and of every generated lead holds
    of every lead of the working sequence. *)
Lemma gathered_Forall (P : Lead -> Prop) ind loc w working w' :
  (forall element lead, duckduckgo_result element = Some lead -> P lead) ->
  (forall element lead, bing_result element = Some lead -> P lead) ->
  (forall i r1 r2 r3 r4,
     P (demo_record ind
          (find_pattern (Js.toLowerCase ind) industryPatterns
             default_pattern)
          (locations loc) i r1 r2 r3 r4)) ->
  gatherLeads env ind loc w = (inr working, w') ->
  Forall P working.
Proof.
  intros Hd Hb Hs Hg.
  destruct (RouteFacts.gatherLeads_run env ind loc w)
    as (s & w0 & rest & Hrun & _ & _ & Hgen).
  rewrite Hg in Hrun. injection Hrun as -> ->.
  rewrite !Forall_app. split; [now apply duckduckgo_leads_Forall|]. split.
  - destruct (_ <? 10); [now apply bing_leads_Forall|constructor].
  - destruct (_ <? 5); [|subst s; constructor].
    destruct Hgen as (w2 & Hgen & _). eapply generated_Forall; eauto.
Qed.

(** A property of the working sequence that holds of each of its leads
    holds of each lead of a successful response. *)
Lemma responded_Forall (P : Lead -> Prop) request w ls src w' :
  (forall element lead, duckduckgo_result element = Some lead -> P lead) ->
  (forall element lead, bing_result element = Some lead -> P lead) ->
  (forall ind loc i r1 r2 r3 r4,
     P (demo_record ind
          (find_pattern (Js.toLowerCase ind) industryPatterns
             default_pattern)
          (locations loc) i r1 r2 r3 r4)) ->
  POST env request w = (Success ls src, w') ->
  Forall P ls.
Proof.
  intros Hd Hb Hs H.
  destruct (RouteFacts.POST_success env _ _ _ _ _ H)
    as (ind & loc & working & _ & _ & Hg & -> & _).
  apply Forall_forall. intros l Hin.
  apply In_firstn, DedupFacts.In_unique in Hin.
  pose proof (gathered_Forall P _ _ _ _ _ Hd Hb (Hs ind _) Hg) as HP.
  rewrite Forall_forall in HP. auto.
Qed.

End WithWorld.
End MoreFacts.

(** ** Contacts and descriptions *)

Lemma inferContact_cases (snippet c : string) :
  inferContact snippet = Some c ->
  FirstMatch emailPattern snippet c \/
  (NoMatch emailPattern snippet /\ FirstMatch phonePattern snippet c).
Proof.
  unfold inferContact.
  destruct (ContactFacts.match0_decide emailPattern snippet)
    as [(m & Em & Hm)|[Em Hm]]; rewrite Em.
  - assert (Ht : Js.truthy m = true)
      by (eapply ContactFacts.FirstMatch_truthy; [|exact Hm]; simpl; lia).
    destruct m as [|a m]; [discriminate|]. cbn [Js.or_undef].
    intros H. injection H as <-. now left.
  - cbn [Js.or_undef]. intros Ep. right. split; [assumption|].
    now apply ContactFacts.match0_some.
Qed.

Lemma FirstMatch_substring r text m :
  FirstMatch r text m -> substring m text.
Proof. intros (i & (pre & post & Ht & _) & _). now exists pre, post. Qed.

Lemma inferContact_substring (snippet c : string) :
  inferContact snippet = Some c -> c <> "" /\ substring c snippet.
Proof.
  intros H. apply inferContact_cases in H.
  destruct H as [H|[_ H]]; split;
    try (now apply FirstMatch_substring in H);
    apply StringFacts.truthy_iff;
    (eapply ContactFacts.FirstMatch_truthy; [|exact H]); simpl; lia.
Qed.

Lemma or_else_nonempty (a b : string) : b <> "" -> Js.or_else a b <> "".
Proof. unfold Js.or_else. destruct a; simpl; [auto|discriminate]. Qed.

Lemma substring_nonempty (c text : string) :
  c <> "" -> substring c text -> Js.or_else text "No description available" = text.
Proof.
  intros Hc (pre & post & ->).
  destruct pre; [|reflexivity]. destruct c; [contradiction|reflexivity].
Qed.

(** X1. The DuckDuckGo adapter returns at most 20 leads and the Bing
    adapter at most 15, however many results the page holds. *)
Theorem adapter_result_caps {random_source : MathRandom} (env : Env)
    (ind loc : string) (w : World) :
  exists d b w1 w2,
    scrapeFromDuckDuckGo env ind loc w = (inr d, w1) /\
    scrapeFromBing env ind loc w = (inr b, w2) /\
    List.length d <= 20 /\ List.length b <= 15.
Proof.
  do 4 eexists. split; [apply RouteFacts.scrapeFromDuckDuckGo_run|].
  split; [apply RouteFacts.scrapeFromBing_run|]. split.
  - apply MoreFacts.duckduckgo_leads_length.
  - apply MoreFacts.bing_leads_length.
Qed.

(** X2. The cap counts result elements, not leads: an adapter's leads
    are those of the first 20 (Bing: 15) result elements that have a
    title and a link, in document order; later elements are ignored even
    when earlier ones were skipped. *)
Theorem adapters_read_first_results {random_source : MathRandom} (env : Env)
    (ind loc : string) (w : World) (results : list ResultNode) :
  (net env (duckduckgo_url ind loc) = Response true (Page results) ->
   fst (scrapeFromDuckDuckGo env ind loc w) =
     inr (filter_map duckduckgo_result (firstn 20 results))) /\
  (net env (bing_url ind loc) = Response true (Page results) ->
   fst (scrapeFromBing env ind loc w) =
     inr (filter_map bing_result (firstn 15 results))).
Proof.
  split; intros Hnet.
  - rewrite RouteFacts.scrapeFromDuckDuckGo_run,
      MoreFacts.duckduckgo_leads_eq, Hnet. reflexivity.
  - rewrite RouteFacts.scrapeFromBing_run, MoreFacts.bing_leads_eq, Hnet.
    reflexivity.
Qed.

(** X3. No lead of a successful response has an empty description: an
    adapter substitutes the placeholder for an empty snippet, and the
    generator writes a sentence. *)
Theorem descriptions_never_empty {random_source : MathRandom} (env : Env)
    (request : Request) (w w' : World) (ls : list Lead) (src : string) :
  POST env request w = (Success ls src, w') ->
  Forall (fun l => description l <> "") ls.
Proof.
  apply MoreFacts.responded_Forall.
  - unfold duckduckgo_result. intros element lead.
    destruct (_ && _); [|discriminate]. intros H. injection H as <-.
    cbn [description]. now apply or_else_nonempty.
  - unfold bing_result. intros element lead.
    destruct (_ && _); [|discriminate]. intros H. injection H as <-.
    cbn [description]. now apply or_else_nonempty.
  - intros. discriminate.
Qed.

(** X4. A contact that an adapter attaches to a lead is a non-empty
    piece of the lead's description. *)
Theorem adapter_contact_in_description (element : ResultNode) (lead : Lead)
    (c : string) :
  duckduckgo_result element = Some lead \/ bing_result element = Some lead ->
  contact lead = Some c ->
  c <> "" /\ substring c (description lead).
Proof.
  unfold duckduckgo_result, bing_result.
  destruct (_ && _); [|now intros [H|H]].
  intros [H|H]; injection H as <-; cbn [contact description];
    intros Hc; apply inferContact_substring in Hc; destruct Hc as [Hne Hsub];
    (split; [assumption|]);
    now rewrite (substring_nonempty c _ Hne Hsub).
Qed.

(** ** Requests, bounds and failures *)

Module TraceFacts.

Local Open Scope list_scope.



Lemma first_occurrences_length l :
  List.length (first_occurrences l) <= List.length l.
Proof.
  induction l as [|x l IH]; simpl; [lia|].
  pose proof (filter_length_le (fun y => negb (String.eqb x y))
                (first_occurrences l)).
  lia.
Qed.

Lemma uniqueLeads_length leads :
  List.length (uniqueLeads leads) <= List.length leads.
Proof.
  rewrite <- (length_map url (uniqueLeads leads)), DedupFacts.urls_unique.
  rewrite <- (length_map url leads). apply first_occurrences_length.
Qed.

Lemma NoDup_firstn {A} (n : nat) (l : list A) : NoDup l -> NoDup (firstn n l).
Proof.
  intros H. rewrite <- (firstn_skipn n l) in H.
  now apply NoDup_app_remove_r in H.
Qed.

Section WithWorld.

Context {random_source : MathRandom} (env : Env).

(** The whole trace of the strategies, and a bound on the synthetic
    part. *)
Lemma gatherLeads_trace ind loc w :
  let d := duckduckgo_leads env ind loc in
  let b := if List.length d <? 10 then bing_leads env ind loc else [] in
  exists s w',
    gatherLeads env ind loc w = (inr (d ++ b ++ s), w') /\
    trace w' =
      trace w ++
      adapter_events DuckDuckGo (duckduckgo_url ind loc)
        "DuckDuckGo scraping error:" (net env (duckduckgo_url ind loc)) ++
      (if List.length d <? 10
       then adapter_events Bing (bing_url ind loc)
              "Bing scraping error:" (net env (bing_url ind loc))
       else []) ++
      (if List.length (d ++ b) <? 5 then [Invoke Demo] else []) /\
    (if List.length (d ++ b) <? 5
     then 8 <= List.length s <= 15 else s = []).
Proof.
  intros d b. cbv beta zeta delta [gatherLeads].
  erewrite RouteFacts.bind_inr by apply RouteFacts.scrapeFromDuckDuckGo_run.
  rewrite RouteFacts.concat_if_nonempty. fold d.
  set (w1 := mkWorld _ (drawn w)).
  assert (Hb : exists w2,
    (if List.length d <? 10
     then bingLeads <- scrapeFromBing env ind loc ;; ret (d ++ bingLeads)
     else ret d) w1 = (inr (d ++ b), w2) /\
    trace w2 = trace w1 ++
      (if List.length d <? 10
       then adapter_events Bing (bing_url ind loc)
              "Bing scraping error:" (net env (bing_url ind loc))
       else [])).
  { subst b. destruct (List.length d <? 10).
    - eexists. split.
      + erewrite RouteFacts.bind_inr
          by apply RouteFacts.scrapeFromBing_run.
        reflexivity.
      + reflexivity.
    - exists w1. rewrite !app_nil_r. auto. }
  destruct Hb as (w2 & Hb & Ht2).
  erewrite RouteFacts.bind_inr by exact Hb. fold b.
  destruct (RouteFacts.demo_stage_run env ind loc (d ++ b) w2)
    as (s & w3 & Hs & Ht3 & Hgen).
  exists s, w3. rewrite Hs, app_assoc. split; [reflexivity|]. split.
  - rewrite Ht3, Ht2. subst w1. cbn [trace]. unfold adapter_events at 1.
    rewrite <- !app_assoc. reflexivity.
  - destruct (List.length (d ++ b) <? 5); [|assumption].
    destruct (RouteFacts.generateDemoLeads_run env ind loc w2)
      as (s0 & w4 & Hrun & _ & Hlen & _).
    rewrite Hgen in Hrun. injection Hrun as <- <-. exact Hlen.
Qed.

Lemma gathered_at_most_24 ind loc w working w' :
  gatherLeads env ind loc w = (inr working, w') ->
  List.length working <= 24.
Proof.
  intros Hg.
  destruct (gatherLeads_trace ind loc w) as (s & w0 & Hrun & _ & Hs).
  rewrite Hg in Hrun. injection Hrun as -> _.
  pose proof (MoreFacts.duckduckgo_leads_length env ind loc) as Hd.
  pose proof (MoreFacts.bing_leads_length env ind loc) as Hb.
  rewrite app_assoc, length_app in *.
  rewrite length_app in *.
  destruct (List.length (duckduckgo_leads env ind loc) <? 10) eqn:E10;
    [apply Nat.ltb_lt in E10|apply Nat.ltb_ge in E10];
    (destruct (_ <? 5) eqn:E5;
     [apply Nat.ltb_lt in E5|apply Nat.ltb_ge in E5; subst s]);
    simpl in *; lia.
Qed.

End WithWorld.
End TraceFacts.

(** X5. The cap of 25 never cuts anything: the working sequence holds at
    most 24 leads, so a successful response is the whole deduplicated
    working sequence. *)
Theorem cap_never_truncates {random_source : MathRandom} (env : Env)
    (request : Request) (w w' : World) (ls : list Lead) (src : string) :
  POST env request w = (Success ls src, w') ->
  exists ind loc working,
    gatherLeads env ind loc w = (inr working, w') /\
    List.length working <= 24 /\
    ls = uniqueLeads working.
Proof.
  intros H.
  destruct (RouteFacts.POST_success env _ _ _ _ _ H)
    as (ind & loc & working & _ & _ & Hg & -> & _).
  exists ind, (or_empty loc), working.
  pose proof (TraceFacts.gathered_at_most_24 env _ _ _ _ _ Hg) as Hlen.
  pose proof (TraceFacts.uniqueLeads_length working) as Hu.
  repeat split; try assumption.
  apply firstn_all2. lia.
Qed.

(** X6. No two leads of a successful response have the same url. *)
Theorem returned_urls_distinct {random_source : MathRandom} (env : Env)
    (request : Request) (w w' : World) (ls : list Lead) (src : string) :
  POST env request w = (Success ls src, w') ->
  NoDup (map url ls).
Proof.
  intros H.
  destruct (RouteFacts.POST_success env _ _ _ _ _ H)
    as (ind & loc & working & _ & _ & Hg & -> & _).
  rewrite <- firstn_map, DedupFacts.urls_unique.
  apply TraceFacts.NoDup_firstn, DedupFacts.NoDup_first_occurrences.
Qed.



(** ** The generator and deduplication, further *)

Module GeneratorFacts.

Import StringFacts.
Local Open Scope list_scope.

Lemma set_fresh {V} (k : string) (v : V) (m : @JsMap.t V) :
  ~ In k (JsMap.keys m) -> JsMap.set k v m = m ++ [(k, v)].
Proof.
  induction m as [|[k' v'] m IH]; simpl; intros Hk; [reflexivity|].
  destruct (String.eqb k' k) eqn:E.
  - apply String.eqb_eq in E. tauto.
  - rewrite IH by tauto. reflexivity.
Qed.

Lemma values_build_NoDup leads : forall m : @JsMap.t Lead,
  NoDup (JsMap.keys m ++ map url leads) ->
  JsMap.values (build leads m) = JsMap.values m ++ leads.
Proof.
  induction leads as [|l leads IH]; intros m Hnd.
  - simpl. now rewrite app_nil_r.
  - rewrite DedupFacts.build_cons.
    assert (Hfresh : ~ In (url l) (JsMap.keys m)).
    { intros Hin. simpl in Hnd. apply NoDup_remove_2 in Hnd.
      apply Hnd, in_or_app. now left. }
    rewrite set_fresh by assumption.
    rewrite IH.
    + unfold JsMap.values. rewrite map_app, <- app_assoc. reflexivity.
    + unfold JsMap.keys. rewrite map_app, <- app_assoc. exact Hnd.
Qed.

Lemma uniqueLeads_NoDup_id leads :
  NoDup (map url leads) -> uniqueLeads leads = leads.
Proof.
  intros Hnd. apply (values_build_NoDup leads []). exact Hnd.
Qed.

Lemma pick_In {random_source : MathRandom} (r : draw) (array : list string) :
  array <> [] -> In (pick r array) array.
Proof.
  intros Hne. unfold pick. apply nth_In. apply floor_times_lt.
  destruct array; [contradiction|simpl; lia].
Qed.

Lemma find_pattern_in_table lowered entries dflt :
  find_pattern lowered entries dflt = dflt \/
  exists key, In (key, find_pattern lowered entries dflt) entries.
Proof.
  induction entries as [|[key value] entries IH]; simpl; [now left|].
  destruct (Js.includes lowered key).
  - right. exists key. now left.
  - destruct IH as [IH|(k & IH)]; [now left|].
    right. exists k. now right.
Qed.

(** The pool the generator draws suffixes from is one of the lists of
    the table. *)
Lemma pattern_in_table ind :
  exists key,
    In (key, find_pattern (Js.toLowerCase ind) industryPatterns
               default_pattern) industryPatterns.
Proof.
  destruct (find_pattern_in_table (Js.toLowerCase ind) industryPatterns
              default_pattern) as [->|H]; [|assumption].
  exists "default". unfold industryPatterns, default_pattern.
  do 8 right. now left.
Qed.

Lemma pattern_nonempty ind :
  find_pattern (Js.toLowerCase ind) industryPatterns default_pattern <> [].
Proof.
  destruct (pattern_in_table ind) as (key & Hin). intros Hnil.
  rewrite Hnil in Hin. unfold industryPatterns in Hin. simpl in Hin.
  repeat (destruct Hin as [Hin|Hin]; [discriminate Hin|]). exact Hin.
Qed.

Lemma pattern_suffixes ind suffix :
  In suffix (find_pattern (Js.toLowerCase ind) industryPatterns
               default_pattern) ->
  In suffix all_suffixes.
Proof.
  intros Hin. destruct (pattern_in_table ind) as (key & Hkey).
  unfold all_suffixes. apply in_flat_map. eexists. split; [exact Hkey|].
  exact Hin.
Qed.

Lemma locations_nonempty loc : locations loc <> [].
Proof. unfold locations. destruct (Js.truthy loc); discriminate. Qed.

(** The address the generator writes for a business name. *)
Lemma synthetic_contacts_match :
  forallb (fun surname =>
    forallb (fun suffix =>
      let c := ("contact@" ++
                keep_alnum (Js.toLowerCase (surname ++ "'s " ++ suffix))
                ++ ".com")%string in
      match match0 emailPattern c with
      | Some m => String.eqb m c
      | None => false
      end) all_suffixes) names = true.
Proof. vm_compute. reflexivity. Qed.

Lemma synthetic_contact_is_email surname suffix :
  In surname names -> In suffix all_suffixes ->
  let c := ("contact@" ++
            keep_alnum (Js.toLowerCase (surname ++ "'s " ++ suffix))
            ++ ".com")%string in
  match0 emailPattern c = Some c.
Proof.
  intros Hn Hs c. subst c.
  pose proof synthetic_contacts_match as H.
  rewrite forallb_forall in H. specialize (H surname Hn).
  rewrite forallb_forall in H. specialize (H suffix Hs).
  cbv beta zeta in H.
  destruct (match0 emailPattern _) as [m|]; [|discriminate H].
  apply String.eqb_eq in H. now subst m.
Qed.

End GeneratorFacts.

(** X9. Every synthetic lead is named [surname's suffix] with the
    surname from the list of ten and the suffix from the pool chosen for
    the industry, and its description names the industry as given and a
    place: the location when one is supplied, otherwise one of the six
    stock qualifiers. *)
Theorem generated_lead_shape {random_source : MathRandom} (env : Env)
    (ind loc : string) (w w' : World) (s : list Lead) :
  generateDemoLeads env ind loc w = (inr s, w') ->
  Forall (fun l =>
    exists surname suffix place sentence,
      In surname names /\
      In suffix (find_pattern (Js.toLowerCase ind) industryPatterns
                   default_pattern) /\
      In place (locations loc) /\
      (loc <> "" -> place = loc) /\
      name l = surname ++ "'s " ++ suffix /\
      description l =
        "Professional " ++ ind ++ " services in " ++ place ++ ". "
        ++ sentence) s.
Proof.
  apply MoreFacts.generated_Forall. intros i r1 r2 r3 r4.
  exists (pick r1 names),
         (pick r2 (find_pattern (Js.toLowerCase ind) industryPatterns
                     default_pattern)),
         (pick r3 (locations loc)).
  eexists. split; [apply GeneratorFacts.pick_In; discriminate|].
  split; [apply GeneratorFacts.pick_In, GeneratorFacts.pattern_nonempty|].
  split; [apply GeneratorFacts.pick_In, GeneratorFacts.locations_nonempty|].
  split; [|split; reflexivity].
  intros Hloc.
  pose proof (GeneratorFacts.pick_In r3 (locations loc)
                (GeneratorFacts.locations_nonempty loc)) as Hin.
  unfold locations in Hin |- *.
  destruct loc; [contradiction|]. simpl in Hin |- *.
  destruct Hin as [Hin|[]]. symmetry. exact Hin.
Qed.

(** X10. A synthetic lead carries a contact exactly when its description
    says so, and the contact is then an address that the route's own
    email pattern matches from its first to its last character. *)
Theorem generated_contact_announced {random_source : MathRandom} (env : Env)
    (ind loc : string) (w w' : World) (s : list Lead) :
  generateDemoLeads env ind loc w = (inr s, w') ->
  Forall (fun l =>
    (contact l = None /\
     exists front,
       description l =
         front ++ "Serving the local community with quality service.") \/
    (exists c front,
       contact l = Some c /\
       description l = front ++ "Contact available for inquiries." /\
       inferContact c = Some c)) s.
Proof.
  apply MoreFacts.generated_Forall. intros i r1 r2 r3 r4.
  unfold demo_record. cbn [contact description].
  destruct (above_half r4).
  - right. eexists. eexists. split; [reflexivity|]. split.
    + rewrite <- !StringFacts.append_assoc. reflexivity.
    + pose proof (GeneratorFacts.synthetic_contact_is_email
                    (pick r1 names)
                    (pick r2 (find_pattern (Js.toLowerCase ind)
                                industryPatterns default_pattern))) as H.
      cbv zeta in H. unfold inferContact. rewrite H.
      * reflexivity.
      * apply GeneratorFacts.pick_In. discriminate.
      * apply (GeneratorFacts.pattern_suffixes ind),
          GeneratorFacts.pick_In, GeneratorFacts.pattern_nonempty.
  - left. split; [reflexivity|]. eexists.
    rewrite <- !StringFacts.append_assoc. reflexivity.
Qed.

(** X11. Deduplication leaves a sequence without repeated urls as it is;
    in particular deduplicating twice is deduplicating once. *)
Theorem dedup_fixes_distinct (ls : list Lead) :
  (NoDup (map url ls) -> uniqueLeads ls = ls) /\
  uniqueLeads (uniqueLeads ls) = uniqueLeads ls.
Proof.
  split; [apply GeneratorFacts.uniqueLeads_NoDup_id|].
  apply GeneratorFacts.uniqueLeads_NoDup_id.
  rewrite DedupFacts.urls_unique. apply DedupFacts.NoDup_first_occurrences.
Qed.

(** X12. When neither live source yields a lead, the response is the
    generator's output, lead for lead and in its order. *)
Theorem offline_response_is_synthetic {random_source : MathRandom}
    (env : Env) (ind : string) (loc : option string) (w : World) :
  Js.truthy ind = true ->
  duckduckgo_leads env ind (or_empty loc) = []%list ->
  bing_leads env ind (or_empty loc) = []%list ->
  exists s w2 w',
    generateDemoLeads env ind (or_empty loc) w2 = (inr s, w') /\
    POST env (Json (mkBody (Some ind) loc)) w =
      (Success s "web_scraping", w').
Proof.
  intros Hind Hd Hb.
  destruct (RouteFacts.gatherLeads_run env ind (or_empty loc) w)
    as (s & w' & rest & Hrun & _ & _ & Hs).
  rewrite Hd in Hrun, Hs. cbn [List.length Nat.ltb Nat.leb] in Hrun, Hs.
  rewrite Hb in Hrun, Hs. cbn [List.length Nat.ltb Nat.leb app] in Hrun, Hs.
  destruct Hs as (w2 & Hgen & _).
  exists s, w2, w'. split; [exact Hgen|].
  rewrite (RouteFacts.POST_run env ind loc w s w' Hind Hrun).
  destruct (RouteFacts.generateDemoLeads_run env ind (or_empty loc) w2)
    as (s0 & w3 & Hrun0 & _ & Hlen & Hurls & _).
  rewrite Hgen in Hrun0. injection Hrun0 as <- <-.
  unfold respond.
  rewrite GeneratorFacts.uniqueLeads_NoDup_id
    by (rewrite Hurls; apply RouteFacts.demo_urls_NoDup; lia).
  rewrite firstn_all2 by lia.
  destruct s; [simpl in Hlen; lia|reflexivity].
Qed.

(** ** Characters of urls, contacts and names *)

Module CharFacts.

Import StringFacts.
Local Open Scope list_scope.

Lemma chars_append (a b : string) :
  chars (a ++ b)%string = chars a ++ chars b.
Proof. apply list_of_append. Qed.

Lemma lower_char_not_upper c : Js.between 65 90 (Js.lower_char c) = false.
Proof. destruct c as [[] [] [] [] [] [] [] []]; reflexivity. Qed.

Lemma toLowerCase_not_upper s :
  Forall (fun c => Js.between 65 90 c = false) (chars (Js.toLowerCase s)).
Proof.
  induction s as [|c s IH]; simpl; constructor;
    [apply lower_char_not_upper|assumption].
Qed.

Lemma hyphenate_slug s : forall in_run,
  Forall (fun c => Js.between 65 90 c = false) (chars s) ->
  Forall (fun c => slug_char c = true) (chars (hyphenate in_run s)).
Proof.
  induction s as [|c s IH]; intros in_run Hs; simpl; [constructor|].
  inversion Hs as [|? ? Hc Hs']; subst.
  destruct (Js.is_space c) eqn:E.
  - destruct in_run; [now apply IH|].
    simpl. constructor; [reflexivity|now apply IH].
  - simpl. constructor; [|now apply IH].
    unfold slug_char. now rewrite E, Hc.
Qed.

Lemma digit_char_slug d : d < 10 -> slug_char (Js.digit_char d) = true.
Proof.
  intros Hd. do 10 (destruct d as [|d]; [reflexivity|]). lia.
Qed.

Lemma decimal_fuel_slug fuel : forall n acc,
  Forall (fun c => slug_char c = true) (chars acc) ->
  Forall (fun c => slug_char c = true) (chars (Js.decimal_fuel fuel n acc)).
Proof.
  induction fuel as [|fuel IH]; intros n acc Hacc;
    cbn [Js.decimal_fuel]; [assumption|].
  assert (Hd : Forall (fun c => slug_char c = true)
                 (chars (String (Js.digit_char (n mod 10)) acc))).
  { change (chars (String ?x acc)) with (x :: chars acc).
    constructor; [|assumption].
    apply digit_char_slug. apply Nat.mod_upper_bound. lia. }
  destruct (n / 10 =? 0); [assumption|now apply IH].
Qed.

Lemma encode_char_safe c :
  forallb url_safe (chars (encode_char c)) = true.
Proof. destruct c as [[] [] [] [] [] [] [] []]; reflexivity. Qed.

Lemma encodeURIComponent_safe s :
  Forall (fun c => url_safe c = true) (chars (encodeURIComponent s)).
Proof.
  induction s as [|c s IH]; simpl; [constructor|].
  rewrite chars_append. apply Forall_app. split; [|assumption].
  apply Forall_forall. apply forallb_forall. apply encode_char_safe.
Qed.

Lemma Matches_cons_inv a r w :
  Matches (a :: r) w ->
  exists w1 w2,
    w = w1 ++ w2 /\ Forall (fun c => cls a c = true) w1 /\
    allowed (qnt a) (List.length w1) /\ Matches r w2.
Proof. intros H. inversion H; subst. eauto 7. Qed.

Lemma Matches_nil_inv w : Matches [] w -> w = [].
Proof. intros H. now inversion H. Qed.

Lemma email_match_has_at w : Matches emailPattern w -> In "@"%char w.
Proof.
  unfold emailPattern. intros H.
  apply Matches_cons_inv in H. destruct H as (w1 & w' & -> & _ & _ & H).
  apply Matches_cons_inv in H. destruct H as (w2 & w'' & -> & Hat & Hlen & _).
  cbn [qnt cls allowed] in Hat, Hlen.
  apply in_or_app. right. apply in_or_app. left.
  destruct w2 as [|c [|d w2]]; try discriminate Hlen.
  inversion Hat as [|? ? Hc _]; subst.
  apply Ascii.eqb_eq in Hc. subst c. now left.
Qed.

Lemma phone_match_length w :
  Matches phonePattern w -> 10 <= List.length w <= 14.
Proof.
  unfold phonePattern. intros H.
  repeat (apply Matches_cons_inv in H;
          let w1 := fresh "w" in let Hl := fresh "Hl" in
          destruct H as (w1 & ? & -> & _ & Hl & H);
          cbn [qnt allowed] in Hl).
  apply Matches_nil_inv in H. subst.
  rewrite !length_app. simpl. lia.
Qed.

Lemma trimStart_head s c rest :
  Js.trimStart s = String c rest -> Js.is_space c = false.
Proof.
  induction s as [|d s IH]; simpl; [discriminate|].
  destruct (Js.is_space d) eqn:E; [assumption|].
  intros H. injection H as <- _. exact E.
Qed.

Lemma trimEnd_head s :
  (forall c rest, s = String c rest -> Js.is_space c = false) ->
  forall c rest, Js.trimEnd s = String c rest -> Js.is_space c = false.
Proof.
  destruct s as [|d s]; simpl; [discriminate|].
  intros Hs c rest. specialize (Hs d s eq_refl).
  destruct (Js.trimEnd s).
  - rewrite Hs. intros H. now injection H as <- _.
  - intros H. now injection H as <- _.
Qed.

Lemma trimEnd_last s : forall front c,
  Js.trimEnd s = (front ++ String c "")%string -> Js.is_space c = false.
Proof.
  induction s as [|d s IH]; intros front c; simpl.
  - destruct front; discriminate.
  - destruct (Js.trimEnd s) as [|e t] eqn:Et.
    + destruct (Js.is_space d) eqn:E; [destruct front; discriminate|].
      destruct front as [|f front]; simpl; intros H.
      * now injection H as <-.
      * injection H as _ H. destruct front; discriminate.
    + destruct front as [|f front]; simpl; intros H.
      * discriminate.
      * injection H as _ H. eapply IH. exact H.
Qed.

Lemma trim_no_outer_space s : no_outer_space (Js.trim s).
Proof.
  unfold Js.trim. split.
  - apply trimEnd_head. apply trimStart_head.
  - apply trimEnd_last.
Qed.

Lemma placeholder_no_outer_space :
  no_outer_space "No description available".
Proof.
  split.
  - intros c rest H. now injection H as <- _.
  - intros front c H.
    do 24 (destruct front as [|? front];
           [try discriminate H|injection H as _ H]).
    + now injection H as <-.
    + destruct front; discriminate H.
Qed.

End CharFacts.

(** X13. The url of a synthetic lead holds no white space and no
    upper-case letter, whatever the industry that was asked for. *)
Theorem synthetic_url_charset (ind : string) (i : nat) :
  Forall (fun c => slug_char c = true) (chars (demo_url ind i)).
Proof.
  unfold demo_url. rewrite !CharFacts.chars_append, !Forall_app.
  split; [repeat constructor|]. split.
  - apply CharFacts.hyphenate_slug, CharFacts.toLowerCase_not_upper.
  - split; [repeat constructor|]. split; [|repeat constructor].
    apply CharFacts.decimal_fuel_slug. constructor.
Qed.

(** X14. Both adapters request their fixed endpoint followed by the
    encoded query, and the encoded query holds only unreserved
    characters and percent escapes: no ampersand, equals sign, hash,
    question mark, slash or space of the industry or location reaches
    the search url. *)
Theorem search_url_is_encoded (ind loc : string) :
  let e := encodeURIComponent (query ind loc) in
  duckduckgo_url ind loc = "https://html.duckduckgo.com/html/?q=" ++ e /\
  bing_url ind loc = "https://www.bing.com/search?q=" ++ e /\
  Forall (fun c => url_safe c = true) (chars e) /\
  (forall c, In c ["&"; "="; "#"; "?"; "/"; " "]%char%list ->
             ~ In c (chars e)).
Proof.
  intros e. split; [reflexivity|]. split; [reflexivity|].
  pose proof (CharFacts.encodeURIComponent_safe (query ind loc)) as Hsafe.
  fold e in Hsafe. split; [exact Hsafe|].
  intros c Hc Hin. rewrite Forall_forall in Hsafe.
  specialize (Hsafe c Hin).
  simpl in Hc.
  repeat (destruct Hc as [<-|Hc]; [discriminate Hsafe|]). exact Hc.
Qed.

(** X15. A contact that is inferred from a text occurs in the text and
    either contains an at sign (a match of the email pattern, which is
    tried first) or has between 10 and 14 characters (a match of the
    phone pattern, used only when the text has no email match). *)
Theorem inferred_contact_shape (text c : string) :
  inferContact text = Some c ->
  substring c text /\
  (In "@"%char (chars c) \/
   (NoMatch emailPattern text /\ 10 <= String.length c <= 14)).
Proof.
  intros H. apply inferContact_cases in H.
  destruct H as [H|[Hno H]].
  - split; [now apply FirstMatch_substring in H|]. left.
    destruct H as (i & (pre & post & _ & _ & HM) & _).
    now apply CharFacts.email_match_has_at.
  - split; [now apply FirstMatch_substring in H|]. right.
    split; [assumption|].
    destruct H as (i & (pre & post & _ & _ & HM) & _).
    apply CharFacts.phone_match_length in HM.
    now rewrite StringFacts.length_list_of in HM.
Qed.

(** X16. The name and the description of an adapter's lead neither
    start nor end with white space. *)
Theorem adapter_text_is_trimmed (element : ResultNode) (lead : Lead) :
  duckduckgo_result element = Some lead \/ bing_result element = Some lead ->
  no_outer_space (name lead) /\ no_outer_space (description lead).
Proof.
  assert (Hdesc : forall snippet,
            no_outer_space
              (Js.or_else (Js.trim snippet) "No description available")).
  { intros snippet. unfold Js.or_else.
    destruct (Js.truthy (Js.trim snippet));
      [apply CharFacts.trim_no_outer_space
      |apply CharFacts.placeholder_no_outer_space]. }
  unfold duckduckgo_result, bing_result.
  destruct (_ && _); [|now intros [H|H]].
  intros [H|H]; injection H as <-; cbn [name description];
    (split; [apply CharFacts.trim_no_outer_space|apply Hdesc]).
Qed.

(* ================================================================== *)
(** * Properties of the page *)

Module PageFacts.

Import StringFacts.

Lemma trimStart_blank s :
  Forall (fun c => Js.is_space c = true) (chars s) -> Js.trimStart s = "".
Proof.
  induction s as [|c s IH]; simpl; intros H; [reflexivity|].
  inversion H as [|? ? Hc Hs]; subst. rewrite Hc. auto.
Qed.

Lemma trim_blank s :
  Forall (fun c => Js.is_space c = true) (chars s) -> Js.trim s = "".
Proof. intros H. unfold Js.trim. now rewrite trimStart_blank. Qed.

Lemma trimEnd_empty s :
  Js.trimEnd s = "" -> Forall (fun c => Js.is_space c = true) (chars s).
Proof.
  induction s as [|c s IH]; simpl; intros H; [constructor|].
  destruct (Js.trimEnd s); [|discriminate].
  destruct (Js.is_space c) eqn:E; [|discriminate].
  constructor; auto.
Qed.

Lemma trimStart_visible s c :
  In c (chars s) -> Js.is_space c = false -> Js.trimStart s <> "".
Proof.
  induction s as [|d s IH]; simpl; intros Hin Hc; [contradiction|].
  destruct (Js.is_space d) eqn:E; [|discriminate].
  destruct Hin as [->|Hin]; [congruence|auto].
Qed.

Lemma trim_visible s c :
  In c (chars s) -> Js.is_space c = false -> Js.trim s <> "".
Proof.
  intros Hin Hc Ht. unfold Js.trim in Ht.
  pose proof (trimStart_visible s c Hin Hc) as Hs.
  destruct (Js.trimStart s) as [|d t] eqn:E; [contradiction|].
  apply CharFacts.trimStart_head in E.
  apply trimEnd_empty in Ht. inversion Ht as [|? ? Hd _]; subst.
  congruence.
Qed.

Lemma join_cons sep x xs :
  Page.join sep (x :: xs) =
  x ++ fold_right (fun y acc => sep ++ y ++ acc) "" xs.
Proof.
  revert x. induction xs as [|y ys IH]; intros x.
  - simpl. now rewrite append_nil_r.
  - change (Page.join sep (x :: y :: ys))
      with (x ++ sep ++ Page.join sep (y :: ys)).
    rewrite IH. reflexivity.
Qed.

Lemma csv_unfold ls :
  Page.csv ls = "Name,URL,Description,Contact" ++ rows_text ls.
Proof.
  unfold Page.csv. rewrite join_cons.
  change (Page.join "," Page.headers) with "Name,URL,Description,Contact".
  apply f_equal.
  induction ls as [|l ls IH]; [reflexivity|].
  cbn [map fold_right rows_text]. rewrite IH. reflexivity.
Qed.

Lemma row_text_append l rest :
  Page.row_text (Page.row l) ++ rest =
  String Page.double_quote (name l ++
  String Page.double_quote (String "," (
  String Page.double_quote (url l ++
  String Page.double_quote (String "," (
  String Page.double_quote (description l ++
  String Page.double_quote (String "," (
  String Page.double_quote (Page.contact_cell l ++
  String Page.double_quote rest)))))))))).
Proof.
  unfold Page.row_text, Page.row, Page.quoted. simpl.
  repeat (rewrite ?append_assoc; simpl). reflexivity.
Qed.

Lemma count_char_append c a b :
  count_char c (a ++ b) = count_char c a + count_char c b.
Proof. induction a as [|d a IH]; simpl; [reflexivity|]. rewrite IH. lia. Qed.

Lemma count_char_absent c s : ~ In c (chars s) -> count_char c s = 0.
Proof.
  induction s as [|d s IH]; simpl; intros H; [reflexivity|].
  destruct (Ascii.eqb c d) eqn:E.
  - apply Ascii.eqb_eq in E. subst d. tauto.
  - rewrite IH by tauto. reflexivity.
Qed.

Lemma split_at_quote c a a' x y :
  ~ In c (chars a) -> ~ In c (chars a') ->
  a ++ String c x = a' ++ String c y -> a = a' /\ x = y.
Proof.
  revert a'. induction a as [|d a IH]; intros [|d' a']; simpl;
    intros Ha Ha' H.
  - now injection H as ->.
  - injection H as -> _. tauto.
  - injection H as -> _. tauto.
  - injection H as -> H. destruct (IH a') as [-> ->]; auto.
Qed.

End PageFacts.

(** X17. The page never sends a blank industry: when the field holds
    only white space the handler sets its own message, leaves the leads
    on display and the loading flag as they were, and no request reaches
    the route. *)
Theorem blank_industry_never_sent {random_source : MathRandom} (env : Env)
    (transport : Page.Transport) (st : Page.State) (w : World) :
  Forall (fun c => Js.is_space c = true) (chars (Page.industry st)) ->
  Page.scrapeLeads env transport st w =
    (Page.mkState (Page.industry st) (Page.location st) (Page.leads st)
                  (Page.loading st) "Please enter an industry", w).
Proof.
  intros Hblank. unfold Page.scrapeLeads.
  now rewrite (PageFacts.trim_blank _ Hblank).
Qed.

(** X18. Page and route together: when the industry field holds a
    visible character and the request reaches the route, the page ends
    with the route's leads on display (at least one), no error message
    and the loading flag off; the route's 400 answer cannot occur. *)
Theorem page_shows_route_leads {random_source : MathRandom} (env : Env)
    (st : Page.State) (w : World) (c : ascii) :
  In c (chars (Page.industry st)) -> Js.is_space c = false ->
  exists ls w',
    POST env (Json (mkBody (Some (Page.industry st))
                           (Some (Page.location st)))) w =
      (Success ls "web_scraping", w') /\
    ls <> []%list /\
    Page.scrapeLeads env Page.Reaches st w =
      (Page.mkState (Page.industry st) (Page.location st) (Some ls)
                    false "", w').
Proof.
  intros Hin Hc.
  pose proof (PageFacts.trim_visible _ _ Hin Hc) as Htrim.
  assert (Hind : Js.truthy (Page.industry st) = true).
  { destruct (Page.industry st); [contradiction|reflexivity]. }
  destruct (RouteFacts.gatherLeads_run env (Page.industry st)
              (Page.location st) w) as (s & w' & rest & Hrun & _).
  assert (Hne : 5 <= List.length
                  (duckduckgo_leads env (Page.industry st) (Page.location st) ++
                   (if List.length (duckduckgo_leads env (Page.industry st)
                                      (Page.location st)) <? 10
                    then bing_leads env (Page.industry st) (Page.location st)
                    else []) ++ s)%list)
    by (eapply gathered_length; exact Hrun).
  destruct (respond_nonempty
              (duckduckgo_leads env (Page.industry st) (Page.location st) ++
               (if List.length (duckduckgo_leads env (Page.industry st)
                                  (Page.location st)) <? 10
                then bing_leads env (Page.industry st) (Page.location st)
                else []) ++ s)%list) as (ls & Hr & Hls).
  { intros Hnil. rewrite Hnil in Hne. simpl in Hne. lia. }
  assert (HP : POST env (Json (mkBody (Some (Page.industry st))
                                      (Some (Page.location st)))) w =
               (Success ls "web_scraping", w')).
  { rewrite <- Hr.
    apply (RouteFacts.POST_run env (Page.industry st)
             (Some (Page.location st))); assumption. }
  exists ls, w'. split; [exact HP|]. split; [exact Hls|].
  unfold Page.scrapeLeads. rewrite HP.
  destruct (Js.trim (Page.industry st)); [contradiction|]. reflexivity.
Qed.

(** X19. However the request fares, a click with a visible industry
    ends with the loading flag off and with exactly one of two displays:
    leads and no error message, or an error message and no leads. *)
Theorem page_outcome {random_source : MathRandom} (env : Env)
    (transport : Page.Transport) (st : Page.State) (w : World) (c : ascii) :
  In c (chars (Page.industry st)) -> Js.is_space c = false ->
  let st' := fst (Page.scrapeLeads env transport st w) in
  Page.loading st' = false /\
  ((Page.error st' = "" /\
    exists ls, Page.leads st' = Some ls /\ ls <> []%list) \/
   (Page.error st' <> "" /\ Page.leads st' = Some []%list)).
Proof.
  intros Hin Hc.
  pose proof (PageFacts.trim_visible _ _ Hin Hc) as Htrim.
  assert (Hind : Js.truthy (Page.industry st) = true).
  { destruct (Page.industry st); [contradiction|reflexivity]. }
  destruct transport as [|e].
  - destruct (RouteFacts.gatherLeads_run env (Page.industry st)
                (Page.location st) w) as (s & w' & rest & Hrun & _).
    pose proof (gathered_length env _ _ _ _ _ Hrun) as Hlen.
    destruct (respond_nonempty _
                (fun Hnil => ltac:(rewrite Hnil in Hlen; simpl in Hlen; lia)))
      as (ls & Hr & Hls).
    pose proof (RouteFacts.POST_run env (Page.industry st)
                  (Some (Page.location st)) w _ w' Hind Hrun) as HP.
    rewrite Hr in HP.
    unfold Page.scrapeLeads. rewrite HP.
    destruct (Js.trim (Page.industry st)); [contradiction|].
    cbn. split; [reflexivity|]. left. split; [reflexivity|]. eauto.
  - unfold Page.scrapeLeads.
    destruct (Js.trim (Page.industry st)); [contradiction|].
    cbn. split; [reflexivity|]. right. split; [|reflexivity].
    now apply or_else_nonempty.
Qed.

(** X20. The export starts with the header line and holds exactly one
    line feed for each lead when no field holds a line feed; an empty
    list is not exported at all. *)
Theorem csv_line_per_lead (ls : list Lead) :
  Forall (fields_without Page.line_feed) ls ->
  (Page.exportToCSV ls = None <-> ls = []%list) /\
  Page.csv ls = "Name,URL,Description,Contact" ++ rows_text ls /\
  count_char Page.line_feed (Page.csv ls) = List.length ls.
Proof.
  intros Hls. split; [|split; [apply PageFacts.csv_unfold|]].
  - unfold Page.exportToCSV. destruct ls; simpl; split; congruence.
  - rewrite PageFacts.csv_unfold, PageFacts.count_char_append.
    change (count_char Page.line_feed "Name,URL,Description,Contact")
      with 0.
    induction Hls as [|l ls Hl _ IH]; [reflexivity|].
    cbn [rows_text List.length].
    rewrite PageFacts.row_text_append.
    unfold fields_without, Page.row in Hl.
    inversion Hl as [|? ? Hn Hl1]; subst.
    inversion Hl1 as [|? ? Hu Hl2]; subst.
    inversion Hl2 as [|? ? Hd Hl3]; subst.
    inversion Hl3 as [|? ? Hc _]; subst.
    cbn [count_char].
    repeat (rewrite PageFacts.count_char_append; cbn [count_char]).
    rewrite !PageFacts.count_char_absent by assumption.
    simpl in IH |- *. rewrite IH. reflexivity.
Qed.

(** X21. On leads whose fields hold no double quote the export loses
    nothing: two lists with the same exported text have the same rows of
    cells. *)
Theorem csv_keeps_rows (ls1 ls2 : list Lead) :
  Forall (fields_without Page.double_quote) ls1 ->
  Forall (fields_without Page.double_quote) ls2 ->
  Page.csv ls1 = Page.csv ls2 ->
  map Page.row ls1 = map Page.row ls2.
Proof.
  intros H1 H2 Hcsv. rewrite !PageFacts.csv_unfold in Hcsv.
  apply StringFacts.append_inv_head in Hcsv.
  revert ls2 H2 Hcsv.
  induction H1 as [|l1 ls1 Hl1 _ IH]; intros [|l2 ls2] H2 Hcsv;
    try discriminate Hcsv; [reflexivity|].
  inversion H2 as [|? ? Hl2 H2']; subst.
  cbn [rows_text] in Hcsv.
  rewrite !PageFacts.row_text_append in Hcsv.
  injection Hcsv as Hcsv.
  unfold fields_without, Page.row in Hl1, Hl2.
  inversion Hl1 as [|? ? Hn1 Hr1]; subst.
  inversion Hr1 as [|? ? Hu1 Hr1']; subst.
  inversion Hr1' as [|? ? Hd1 Hr1'']; subst.
  inversion Hr1'' as [|? ? Hc1 _]; subst.
  inversion Hl2 as [|? ? Hn2 Hr2]; subst.
  inversion Hr2 as [|? ? Hu2 Hr2']; subst.
  inversion Hr2' as [|? ? Hd2 Hr2'']; subst.
  inversion Hr2'' as [|? ? Hc2 _]; subst.
  apply PageFacts.split_at_quote in Hcsv; [|assumption..].
  destruct Hcsv as [En Hcsv]. injection Hcsv as Hcsv.
  apply PageFacts.split_at_quote in Hcsv; [|assumption..].
  destruct Hcsv as [Eu Hcsv]. injection Hcsv as Hcsv.
  apply PageFacts.split_at_quote in Hcsv; [|assumption..].
  destruct Hcsv as [Ed Hcsv]. injection Hcsv as Hcsv.
  apply PageFacts.split_at_quote in Hcsv; [|assumption..].
  destruct Hcsv as [Ec Hcsv].
  cbn [map]. unfold Page.row at 1 3. rewrite En, Eu, Ed, Ec.
  f_equal. now apply IH.
Qed.

(* ================================================================== *)
(** * The further properties at work on concrete runs *)

Lemma absent_by_check (c : ascii) (s : string) :
  existsb (Ascii.eqb c) (chars s) = false -> ~ In c (chars s).
Proof.
  intros H Hin.
  assert (Ht : existsb (Ascii.eqb c) (chars s) = true).
  { apply existsb_exists. exists c. split; [assumption|apply Ascii.eqb_refl]. }
  congruence.
Qed.

Lemma adapters_read_first_results_witness :
  net sample_env (duckduckgo_url "pizza" "") = Response true (Page sample_page)
  /\
  fst (scrapeFromDuckDuckGo sample_env "pizza" "" fresh) =
    inr (filter_map duckduckgo_result (firstn 20 sample_page)).
Proof.
  split; [reflexivity|].
  apply (proj1 (adapters_read_first_results sample_env "pizza" "" fresh
                  sample_page)).
  reflexivity.
Defined.

Lemma descriptions_never_empty_witness :
  exists ls src w',
    POST sample_env (Json (mkBody (Some "pizza") None)) fresh =
      (Success ls src, w') /\
    Forall (fun l => description l <> "") ls.
Proof.
  do 3 eexists. split; [vm_compute; reflexivity|].
  eapply (descriptions_never_empty sample_env
            (Json (mkBody (Some "pizza") None)) fresh).
  vm_compute. reflexivity.
Defined.

Lemma adapter_contact_in_description_witness :
  exists lead,
    duckduckgo_result sample_element = Some lead /\
    contact lead = Some "(555) 123-4567" /\
    "(555) 123-4567" <> "" /\
    substring "(555) 123-4567" (description lead).
Proof.
  eexists. split; [reflexivity|]. split; [reflexivity|].
  eapply (adapter_contact_in_description sample_element).
  - left. reflexivity.
  - reflexivity.
Defined.

Lemma cap_never_truncates_witness :
  exists ls src w',
    POST sample_env (Json (mkBody (Some "pizza") None)) fresh =
      (Success ls src, w') /\
    exists ind loc working,
      gatherLeads sample_env ind loc fresh = (inr working, w') /\
      List.length working <= 24 /\ ls = uniqueLeads working.
Proof.
  do 3 eexists. split; [vm_compute; reflexivity|].
  eapply (cap_never_truncates sample_env
            (Json (mkBody (Some "pizza") None)) fresh).
  vm_compute. reflexivity.
Defined.

Lemma returned_urls_distinct_witness :
  exists ls src w',
    POST sample_env (Json (mkBody (Some "pizza") None)) fresh =
      (Success ls src, w') /\
    NoDup (map url ls).
Proof.
  do 3 eexists. split; [vm_compute; reflexivity|].
  eapply (returned_urls_distinct sample_env
            (Json (mkBody (Some "pizza") None)) fresh).
  vm_compute. reflexivity.
Defined.



Lemma generated_lead_shape_witness :
  exists s w',
    generateDemoLeads sample_env "Family Dentist" "Boston" fresh = (inr s, w')
    /\
    Forall (fun l =>
      exists surname suffix place sentence,
        In surname names /\
        In suffix ["Dental Care"; "Dentistry"; "Dental Clinic";
                   "Dental Associates"]%list /\
        In place ["Boston"]%list /\
        ("Boston" <> "" -> place = "Boston") /\
        name l = surname ++ "'s " ++ suffix /\
        description l =
          "Professional Family Dentist services in " ++ place ++ ". "
          ++ sentence) s.
Proof.
  do 2 eexists. split; [vm_compute; reflexivity|].
  eapply (generated_lead_shape sample_env "Family Dentist" "Boston" fresh).
  vm_compute. reflexivity.
Defined.

Lemma generated_contact_announced_witness :
  exists s w',
    generateDemoLeads sample_env "gym" "" fresh = (inr s, w') /\
    Forall (fun l =>
      (contact l = None /\
       exists front,
         description l =
           front ++ "Serving the local community with quality service.") \/
      (exists c front,
         contact l = Some c /\
         description l = front ++ "Contact available for inquiries." /\
         inferContact c = Some c)) s.
Proof.
  do 2 eexists. split; [vm_compute; reflexivity|].
  eapply (generated_contact_announced sample_env "gym" "" fresh).
  vm_compute. reflexivity.
Defined.

Lemma dedup_fixes_distinct_witness :
  NoDup (map url [other_lead; late_lead]%list) /\
  uniqueLeads [other_lead; late_lead]%list = [other_lead; late_lead]%list.
Proof.
  assert (Hnd : NoDup (map url [other_lead; late_lead]%list)).
  { repeat constructor; simpl; intuition discriminate. }
  split; [exact Hnd|].
  exact (proj1 (dedup_fixes_distinct [other_lead; late_lead]%list) Hnd).
Defined.

Lemma offline_response_is_synthetic_witness :
  Js.truthy "restaurant" = true /\
  duckduckgo_leads offline_env "restaurant" "" = []%list /\
  bing_leads offline_env "restaurant" "" = []%list /\
  exists s w2 w',
    generateDemoLeads offline_env "restaurant" "" w2 = (inr s, w') /\
    POST offline_env (Json (mkBody (Some "restaurant") None)) fresh =
      (Success s "web_scraping", w').
Proof.
  split; [reflexivity|]. split; [reflexivity|]. split; [reflexivity|].
  apply (offline_response_is_synthetic offline_env "restaurant" None fresh);
    reflexivity.
Defined.

Lemma inferred_contact_shape_witness :
  inferContact "Call (555) 123-4567 now" = Some "(555) 123-4567" /\
  substring "(555) 123-4567" "Call (555) 123-4567 now" /\
  (In "@"%char (chars "(555) 123-4567") \/
   (NoMatch emailPattern "Call (555) 123-4567 now" /\
    10 <= String.length "(555) 123-4567" <= 14)).
Proof.
  split; [reflexivity|].
  apply (inferred_contact_shape "Call (555) 123-4567 now"). reflexivity.
Defined.

Lemma adapter_text_is_trimmed_witness :
  exists lead,
    bing_result sample_element = Some lead /\
    no_outer_space (name lead) /\ no_outer_space (description lead).
Proof.
  eexists. split; [reflexivity|].
  apply (adapter_text_is_trimmed sample_element). right. reflexivity.
Defined.

Lemma blank_industry_never_sent_witness :
  Forall (fun c => Js.is_space c = true) (chars (Page.industry blank_page)) /\
  Page.scrapeLeads sample_env Page.Reaches blank_page fresh =
    (Page.mkState "  " "" (Some []%list) false "Please enter an industry",
     fresh).
Proof.
  assert (H : Forall (fun c => Js.is_space c = true)
                (chars (Page.industry blank_page)))
    by (repeat constructor).
  split; [exact H|].
  exact (blank_industry_never_sent sample_env Page.Reaches blank_page fresh H).
Defined.

Lemma page_shows_route_leads_witness :
  In "p"%char (chars (Page.industry pizza_page)) /\
  Js.is_space "p" = false /\
  exists ls w',
    POST sample_env (Json (mkBody (Some "pizza") (Some ""))) fresh =
      (Success ls "web_scraping", w') /\
    ls <> []%list /\
    Page.scrapeLeads sample_env Page.Reaches pizza_page fresh =
      (Page.mkState "pizza" "" (Some ls) false "", w').
Proof.
  assert (Hin : In "p"%char (chars (Page.industry pizza_page)))
    by (now left).
  split; [exact Hin|]. split; [reflexivity|].
  exact (page_shows_route_leads sample_env pizza_page fresh "p" Hin eq_refl).
Defined.

Lemma page_outcome_witness :
  In "p"%char (chars (Page.industry pizza_page)) /\
  Js.is_space "p" = false /\
  Page.loading
    (fst (Page.scrapeLeads sample_env
            (Page.Rejects (mkError "")) pizza_page fresh)) = false.
Proof.
  assert (Hin : In "p"%char (chars (Page.industry pizza_page)))
    by (now left).
  split; [exact Hin|]. split; [reflexivity|].
  exact (proj1 (page_outcome sample_env (Page.Rejects (mkError ""))
                  pizza_page fresh "p" Hin eq_refl)).
Defined.

Lemma fields_without_by_check (c : ascii) (ls : list Lead) :
  Forall (fun l => forallb (fun cell => negb (existsb (Ascii.eqb c) (chars cell)))
                           (Page.row l) = true) ls ->
  Forall (fields_without c) ls.
Proof.
  apply Forall_impl. intros l Hl. unfold fields_without.
  apply Forall_forall. intros cell Hcell.
  rewrite forallb_forall in Hl. specialize (Hl cell Hcell).
  apply absent_by_check. now destruct (existsb _ _).
Qed.

Lemma csv_line_per_lead_witness :
  Forall (fields_without Page.line_feed) sample_leads /\
  count_char Page.line_feed (Page.csv sample_leads) = 3.
Proof.
  assert (H : Forall (fields_without Page.line_feed) sample_leads)
    by (apply fields_without_by_check; repeat constructor).
  split; [exact H|].
  exact (proj2 (proj2 (csv_line_per_lead sample_leads H))).
Defined.

Lemma csv_keeps_rows_witness :
  Forall (fields_without Page.double_quote) [other_lead]%list /\
  Forall (fields_without Page.double_quote)
    [mkLead "Luigi's" "https://luigis.example" "No description available"
            (Some "N/A")]%list /\
  Page.csv [other_lead]%list =
    Page.csv [mkLead "Luigi's" "https://luigis.example"
                     "No description available" (Some "N/A")]%list /\
  map Page.row [other_lead]%list =
    map Page.row [mkLead "Luigi's" "https://luigis.example"
                         "No description available" (Some "N/A")]%list.
Proof.
  assert (H1 : Forall (fields_without Page.double_quote) [other_lead]%list)
    by (apply fields_without_by_check; repeat constructor).
  assert (H2 : Forall (fields_without Page.double_quote)
                 [mkLead "Luigi's" "https://luigis.example"
                         "No description available" (Some "N/A")]%list)
    by (apply fields_without_by_check; repeat constructor).
  split; [exact H1|]. split; [exact H2|]. split; [reflexivity|].
  exact (csv_keeps_rows _ _ H1 H2 eq_refl).
Defined.
